(** * Timestamp compression codecs: a shallow embedding and its properties

    The encoders of [time_converter.js] and [enhanced_compression.js] are
    embedded as Rocq functions.  A JavaScript number is a binary64; the
    numbers the encoders meet are integer-valued, and such a number is
    modelled as the [Z] it holds:
      - [a % b]               is [Z.rem a b]  (exact in binary64; the sign
                              follows the dividend),
      - [s[i]]                is [Js.index s i], [undefined] out of range,
      - [x + str]             is [Js.concat_left x str], which writes
                              "undefined" for an [undefined] left operand.
    Two embeddings of the arithmetic are given.  The first computes
    [Math.floor(a / b)], [a - b] and [a + b] on the integers ([a / b], floor
    division, for [b > 0]).  The second, [Binary64], rounds them as the
    source does.  They agree on the safe integers (section "The integer
    embedding is the source on safe integers"; every valid [Date] time
    value is a safe integer), and statements about numbers beyond are made
    on [Binary64].
    Strings are [string]s; every character the encoders write is ASCII. *)

From Stdlib Require Import ZArith String Ascii List Lia Bool.
Import ListNotations.

Local Open Scope string_scope.
Local Open Scope Z_scope.

(* ================================================================== *)
(** * Definitions *)
(* ================================================================== *)

(** ** JavaScript primitives used by the encoders *)

Module Js.

(** [s[i]] on a string, for an integer-valued number [i] (the key of [-0]
    is "0", and [0] is the only zero of [Z]). *)
Definition index (s : string) (i : Z) : option ascii :=
  if i <? 0 then None else String.get (Z.to_nat i) s.

(** [x + str] where [x] is a one-character string or [undefined]. *)
Definition concat_left (x : option ascii) (str : string) : string :=
  match x with
  | Some c => String c str
  | None => "undefined" ++ str
  end.

(** The outcome of a call: a value, or an exception. *)
Inductive error : Set := RangeError.

Inductive completion (A : Type) : Type :=
| Return (a : A)
| Throw (e : error).

Arguments Return {A} a.
Arguments Throw {A} e.

Definition bind {A B} (c : completion A) (k : A -> completion B)
  : completion B :=
  match c with
  | Return a => k a
  | Throw e => Throw e
  end.

End Js.

Notation "x <- c ;; k" := (Js.bind c (fun x => k))
  (at level 61, c at next level, right associativity).

(** ** The shared positional-encoding loop

    Every encoder contains the same loop

      do { result = chars[number % base] + result;
           number = Math.floor(number / base); } while (number > 0);

    [digitLoop] is that loop on the integers, started from the state
    [(result, number)]: the quotient is floored as it is, where the source
    rounds it to binary64 first ([Binary64.digitLoop]; no difference on a
    safe integer, lemma [digitLoop_safe]).
    [fuel] bounds the number of iterations after the first; a division by a
    base of at least two shortens the binary length, so [Z.log2 number]
    iterations are enough ([digitLoop_unfold] below is the loop's own
    equation, proved for every [number]). *)

Fixpoint digitLoop (fuel : nat) (chars : string) (result : string) (number : Z)
  : string :=
  let base := Z.of_nat (String.length chars) in
  let result := Js.concat_left (Js.index chars (Z.rem number base)) result in
  let number := number / base in
  match fuel with
  | S fuel' => if number >? 0 then digitLoop fuel' chars result number
               else result
  | O => result
  end.

Definition loopFuel (number : Z) : nat := Z.to_nat (Z.log2 number).

Definition encodeFrom (chars : string) (result : string) (number : Z) : string :=
  digitLoop (loopFuel number) chars result number.

Definition encodeDigits (chars : string) (number : Z) : string :=
  encodeFrom chars EmptyString number.

(** ** Alphabets (the [chars] literals of the source) *)

Definition chars36 : string := "0123456789abcdefghijklmnopqrstuvwxyz".

Definition chars62 : string :=
  "0123456789abcdefghijklmnopqrstuvwxyzABCDEFGHIJKLMNOPQRSTUVWXYZ".

Definition chars94 : string :=
  "0123456789abcdefghijklmnopqrstuvwxyzABCDEFGHIJKLMNOPQRSTUVWXYZ!#$%&()*+,-./:;<=>?@[]^_{|}~".

(** ** time_converter.js *)

(** [compressMillisCustom]: the Base36 encoder. *)
Definition compressMillisCustom (millis : Z) : string :=
  encodeDigits chars36 millis.

(** [compressMillisBase62] (defined identically in time_converter.js,
    enhanced_compression.js and the benchmarks). *)
Definition compressMillisBase62 (millis : Z) : string :=
  encodeDigits chars62 millis.

(** The two fields are numbers: an integer, or [NaN] ([None]). *)
Record DaysAndTime : Set := mkDaysAndTime
  { daysSinceEpoch : option Z;
    millisSinceMidnight : option Z }.

Definition MS_PER_DAY : Z := 24 * 60 * 60 * 1000.

(** A time value that [new Date] accepts: at most 8.64e15 in magnitude.
    Beyond it the date is invalid and every number read from it is [NaN]. *)
Definition validTimeValue (millis : Z) : bool :=
  (-8640000000000000 <=? millis) && (millis <=? 8640000000000000).

(** [millisecondsToDaysAndTime].  [date - epoch] is [millis - 0] for a valid
    date; the quotient by the milliseconds of a day is that of a safe
    integer.  The local calendar (time zone and daylight-saving rules of the
    host) enters through
    [new Date(date.getFullYear(), date.getMonth(), date.getDate())] only: it
    is the parameter [localMidnight], the time value of that date for the
    instant [millis].  For an invalid date all three reads are [NaN] and so
    are both fields. *)
Definition millisecondsToDaysAndTime (localMidnight : Z -> Z) (millis : Z)
  : DaysAndTime :=
  if validTimeValue millis then
    let date := millis in
    let epoch := 0 in
    let daysSinceEpoch := (date - epoch) / MS_PER_DAY in
    let midnight := localMidnight date in
    let millisSinceMidnight := date - midnight in
    mkDaysAndTime (Some daysSinceEpoch) (Some millisSinceMidnight)
  else mkDaysAndTime None None.

(** The local calendar of a host whose time zone is UTC, for the instants
    from the year 100 on ([new Date(year, month, day)] reads a year from 0
    to 99 as 1900 + year). *)
Definition utcMidnight (millis : Z) : Z := MS_PER_DAY * (millis / MS_PER_DAY).

(** The local calendar of a host at a fixed offset from UTC (no daylight
    saving): local time is [millis + offset]; as [utcMidnight], for the
    local years from 100 on. *)
Definition fixedOffsetMidnight (offset : Z) (millis : Z) : Z :=
  MS_PER_DAY * ((millis + offset) / MS_PER_DAY) - offset.

(** The local calendar of a host whose clocks change once: the offset is
    [offsetBefore] up to the local day of the change, which runs from
    [dayStart] to [nextDayStart], and [offsetAfter] from then on. *)
Definition oneChangeMidnight
  (offsetBefore offsetAfter dayStart nextDayStart : Z) (millis : Z) : Z :=
  if millis <? dayStart then fixedOffsetMidnight offsetBefore millis
  else if millis <? nextDayStart then dayStart
  else fixedOffsetMidnight offsetAfter millis.

(** Central Europe around 2024-03-31, a local day of 23 hours (from
    2024-03-30T23:00Z to 2024-03-31T22:00Z), and around 2023-10-29, a local
    day of 25 hours (from 2023-10-28T22:00Z to 2023-10-29T23:00Z). *)
Definition springChangeMidnight : Z -> Z :=
  oneChangeMidnight 3600000 7200000 1711839600000 1711922400000.

Definition autumnChangeMidnight : Z -> Z :=
  oneChangeMidnight 7200000 3600000 1698530400000 1698620400000.

(** The Base62 loop on a field of the split.  On [NaN] it runs once:
    [chars[NaN % base]] is [undefined], and [Math.floor(NaN / base)] is
    [NaN], which is not greater than 0. *)
Definition encodeNumber (chars : string) (number : option Z) : string :=
  match number with
  | Some n => encodeDigits chars n
  | None => Js.concat_left None EmptyString
  end.

(** [compressSplitDaysTime]. *)
Definition compressSplitDaysTime (localMidnight : Z -> Z) (millis : Z) : string :=
  let dt := millisecondsToDaysAndTime localMidnight millis in
  let daysResult := encodeNumber chars62 (daysSinceEpoch dt) in
  let timeResult := encodeNumber chars62 (millisSinceMidnight dt) in
  daysResult ++ ":" ++ timeResult.

(** ** enhanced_compression.js *)

(** [compressMillisBase94]. *)
Definition compressMillisBase94 (millis : Z) : string :=
  encodeDigits chars94 millis.

(** The direct codecs, and a call of one of them.  None of the three
    functions contains a [throw], and none of the operations of their loop
    can throw (an index out of range reads [undefined], [undefined + str]
    concatenates, arithmetic on numbers is total): a call completes normally
    with the value the loop has built. *)
Inductive DirectCodec : Set := Base36 | Base62 | Base94.

Definition directChars (codec : DirectCodec) : string :=
  match codec with
  | Base36 => chars36
  | Base62 => chars62
  | Base94 => chars94
  end.

Definition directEncode (codec : DirectCodec) (millis : Z)
  : Js.completion string :=
  Js.Return
    match codec with
    | Base36 => compressMillisCustom millis
    | Base62 => compressMillisBase62 millis
    | Base94 => compressMillisBase94 millis
    end.

Definition defaultReferenceDate : Z := 1577836800000.

(** [compressMillisVariable]; [None] is an omitted [referenceDate].  The
    difference is the exact one, which is the source's as long as it is a
    safe integer ([Binary64.compressMillisVariable] rounds it, lemma
    [variable_safe]). *)
Definition compressMillisVariable (millis : Z) (referenceDate : option Z)
  : string :=
  let referenceDate :=
    match referenceDate with Some r => r | None => defaultReferenceDate end in
  let diff := millis - referenceDate in
  let sign := if diff >=? 0 then "+"%char else "-"%char in
  let absDiff := Z.abs diff in
  let result := encodeDigits chars62 absDiff in
  String sign result.

(** *** Node's [Buffer], as far as [compressMillisBitPacked] uses it

    A buffer is the list of its bytes.  A store into a byte keeps the low
    eight bits; a store past the end is ignored.  [writeUInt16BE] and
    [writeUInt32BE] throw a [RangeError] for a value outside the unsigned
    range of the field, and write the bytes most significant first. *)

Definition Buffer : Set := list Z.

Definition Buffer_alloc (size : nat) : Buffer := repeat 0 size.

Fixpoint setByte (buf : Buffer) (offset : nat) (value : Z) : Buffer :=
  match buf, offset with
  | [], _ => []
  | _ :: rest, O => Z.land value 255 :: rest
  | b :: rest, S offset' => b :: setByte rest offset' value
  end.

Definition writeUInt16BE (buf : Buffer) (value : Z) (offset : nat)
  : Js.completion Buffer :=
  if (value <? 0) || (value >? 65535) then Js.Throw Js.RangeError
  else
    let buf := setByte buf offset (Z.shiftr value 8) in
    let buf := setByte buf (offset + 1) value in
    Js.Return buf.

Definition writeUInt32BE (buf : Buffer) (value : Z) (offset : nat)
  : Js.completion Buffer :=
  if (value <? 0) || (value >? 4294967295) then Js.Throw Js.RangeError
  else
    let buf := setByte buf (offset + 3) value in
    let value := Z.shiftr value 8 in
    let buf := setByte buf (offset + 2) value in
    let value := Z.shiftr value 8 in
    let buf := setByte buf (offset + 1) value in
    let value := Z.shiftr value 8 in
    let buf := setByte buf offset value in
    Js.Return buf.

(** [buffer.toString('base64')]: RFC 4648 base64 with padding.  Three bytes
    form a 24-bit group that is cut into four 6-bit digits. *)

Definition base64Chars : string :=
  "ABCDEFGHIJKLMNOPQRSTUVWXYZabcdefghijklmnopqrstuvwxyz0123456789+/".

Definition base64Digit (i : Z) : ascii :=
  match Js.index base64Chars i with
  | Some c => c
  | None => "="%char
  end.

Fixpoint toBase64 (bytes : list Z) : string :=
  match bytes with
  | [] => EmptyString
  | [a] =>
      let n := a * 65536 in
      String (base64Digit (n / 262144))
        (String (base64Digit (n / 4096 mod 64)) "==")
  | [a; b] =>
      let n := a * 65536 + b * 256 in
      String (base64Digit (n / 262144))
        (String (base64Digit (n / 4096 mod 64))
           (String (base64Digit (n / 64 mod 64)) "="))
  | a :: b :: c :: rest =>
      let n := a * 65536 + b * 256 + c in
      String (base64Digit (n / 262144))
        (String (base64Digit (n / 4096 mod 64))
           (String (base64Digit (n / 64 mod 64))
              (String (base64Digit (n mod 64)) (toBase64 rest))))
  end.

(** [compressMillisBitPacked]. *)
Definition compressMillisBitPacked (millis : Z) : Js.completion string :=
  let days := millis / MS_PER_DAY in
  let msInDay := Z.rem millis MS_PER_DAY in
  if days >? 65535 then
    Js.Return ("F_" ++ compressMillisBase62 millis)
  else
    let buffer := Buffer_alloc 6 in
    buffer <- writeUInt16BE buffer days 0 ;;
    buffer <- writeUInt32BE buffer msInDay 2 ;;
    Js.Return (toBase64 buffer).

(** [compressTimestampSeries].  [seriesStep] is the body of the [for] loop
    on the state [(result, prev)]; the loop visits the elements after the
    first in order.  The deltas are the exact ones, which are the source's
    as long as they are safe integers ([Binary64.compressTimestampSeries]
    rounds them, lemma [series_safe]). *)
Definition seriesStep (state : string * Z) (timestamp : Z) : string * Z :=
  let '(result, prev) := state in
  let delta := timestamp - prev in
  let prev := timestamp in
  let deltaEncoded := encodeDigits chars62 (Z.abs delta) in
  let signChar := if delta >=? 0 then "+"%char else "-"%char in
  (result ++ String signChar deltaEncoded, prev).

Definition compressTimestampSeries (timestamps : list Z) : string :=
  match timestamps with
  | [] => EmptyString
  | first :: rest =>
      let result := compressMillisBase62 first in
      let prev := first in
      fst (fold_left seriesStep rest (result, prev))
  end.

(** ** Decoders

    The repository defines encoders only.  The decoders below follow the
    decode procedures that the specification documents for each codec. *)

Inductive DecodeError : Set :=
| InvalidCharacter
| InvalidFormat
| InvalidLength.

Inductive Decoded (A : Type) : Type :=
| Ok (a : A)
| Fail (e : DecodeError).

Arguments Ok {A} a.
Arguments Fail {A} e.

(** Position of a character in an alphabet (the first one, if any). *)
Fixpoint indexOf (chars : string) (c : ascii) : option Z :=
  match chars with
  | EmptyString => None
  | String a rest =>
      if Ascii.eqb a c then Some 0
      else option_map Z.succ (indexOf rest c)
  end.

(** Modelled from the spec: the digit-alphabet decoder of section 4.1, which
    the source does not define.  It reads the digits most significant first
    and fails with [InvalidCharacter] on a character outside the alphabet. *)
Fixpoint decodeFrom (chars : string) (acc : Z) (text : string) : Decoded Z :=
  match text with
  | EmptyString => Ok acc
  | String c rest =>
      match indexOf chars c with
      | Some d => decodeFrom chars (acc * Z.of_nat (String.length chars) + d) rest
      | None => Fail InvalidCharacter
      end
  end.

(** Modelled from the spec: [Decode(text, alphabet)] of section 4.1. *)
Definition decodeDigits (chars : string) (text : string) : Decoded Z :=
  decodeFrom chars 0 text.

(** Modelled from the spec: the decoders of the direct codecs (section 4.2),
    absent from the source. *)
Definition decodeBase36 (text : string) : Decoded Z := decodeDigits chars36 text.

(** Modelled from the spec: see [decodeBase36]. *)
Definition decodeBase62 (text : string) : Decoded Z := decodeDigits chars62 text.

(** Modelled from the spec: see [decodeBase36]; the alphabet is the
    encoder's. *)
Definition decodeBase94 (text : string) : Decoded Z := decodeDigits chars94 text.

(** Modelled from the spec: the reference-relative decoder of section 4.3,
    absent from the source: parse the sign character, decode the remainder
    as Base62, apply the sign and add the reference. *)
Definition decodeVariable (text : string) (referenceDate : option Z)
  : Decoded Z :=
  let referenceDate :=
    match referenceDate with Some r => r | None => defaultReferenceDate end in
  match text with
  | String sign rest =>
      if Ascii.eqb sign "+" then
        match decodeBase62 rest with
        | Ok v => Ok (referenceDate + v)
        | Fail e => Fail e
        end
      else if Ascii.eqb sign "-" then
        match decodeBase62 rest with
        | Ok v => Ok (referenceDate - v)
        | Fail e => Fail e
        end
      else Fail InvalidFormat
  | EmptyString => Fail InvalidFormat
  end.

(** Splits a text at the first occurrence of a separator. *)
Fixpoint splitFirst (sep : ascii) (text : string) : option (string * string) :=
  match text with
  | EmptyString => None
  | String c rest =>
      if Ascii.eqb c sep then Some (EmptyString, rest)
      else match splitFirst sep rest with
           | Some (l, r) => Some (String c l, r)
           | None => None
           end
  end.

(** Modelled from the spec: the split day/time decoder of section 4.4, absent
    from the source: split on the first ':', decode each side as Base62 and
    rebuild [epoch + days * 86400000 + millisSinceMidnight], adjusted for
    the local-day definition used at encode time, [localMidnight]: the
    milliseconds count from the midnight of the local day that holds the
    start of UTC day [days], unless that instant falls outside the UTC day;
    then they count from the midnight of the local day that holds its
    end.  On a UTC host this is [epoch + days * 86400000 +
    millisSinceMidnight] itself. *)
Definition decodeSplitDaysTime (localMidnight : Z -> Z) (text : string)
  : Decoded Z :=
  match splitFirst ":" text with
  | None => Fail InvalidFormat
  | Some (daysText, timeText) =>
      match decodeBase62 daysText, decodeBase62 timeText with
      | Ok days, Ok ms =>
          let dayStart := 0 + days * MS_PER_DAY in
          let candidate := localMidnight dayStart + ms in
          if candidate / MS_PER_DAY =? days then Ok candidate
          else Ok (localMidnight (dayStart + MS_PER_DAY - 1) + ms)
      | Fail e, _ => Fail e
      | _, Fail e => Fail e
      end
  end.

(** Modelled from the spec: base64 decoding (section 4.5), the inverse of
    [toBase64]: four digits give a 24-bit group, that is three bytes; padding
    may close the last group. *)
Fixpoint fromBase64 (text : string) : Decoded (list Z) :=
  match text with
  | EmptyString => Ok []
  | String c0 (String c1 (String c2 (String c3 rest))) =>
      match indexOf base64Chars c0, indexOf base64Chars c1 with
      | Some i0, Some i1 =>
          if Ascii.eqb c2 "=" then
            if Ascii.eqb c3 "=" && String.eqb rest EmptyString then
              Ok [((i0 * 64 + i1) * 4096) / 65536]
            else Fail InvalidCharacter
          else
            match indexOf base64Chars c2 with
            | Some i2 =>
                if Ascii.eqb c3 "=" then
                  if String.eqb rest EmptyString then
                    let m := ((i0 * 64 + i1) * 64 + i2) * 64 in
                    Ok [m / 65536; m / 256 mod 256]
                  else Fail InvalidCharacter
                else
                  match indexOf base64Chars c3 with
                  | Some i3 =>
                      let m := ((i0 * 64 + i1) * 64 + i2) * 64 + i3 in
                      match fromBase64 rest with
                      | Ok bytes =>
                          Ok (m / 65536 :: m / 256 mod 256 :: m mod 256 :: bytes)
                      | Fail e => Fail e
                      end
                  | None => Fail InvalidCharacter
                  end
            | None => Fail InvalidCharacter
            end
      | _, _ => Fail InvalidCharacter
      end
  | _ => Fail InvalidLength
  end.

(** Modelled from the spec: the fixed-width decoder of section 4.5, absent
    from the source: the [F_] marker is checked first; otherwise the text is
    base64-decoded to exactly six bytes, the two big-endian fields are read
    and [days * 86400000 + millisInDay] is returned. *)
Definition stripMarker (text : string) : option string :=
  match text with
  | String c0 (String c1 rest) =>
      if Ascii.eqb c0 "F" && Ascii.eqb c1 "_" then Some rest else None
  | _ => None
  end.

Definition decodeBitPacked (text : string) : Decoded Z :=
  match stripMarker text with
  | Some rest => decodeBase62 rest
  | None =>
      match fromBase64 text with
      | Ok [d1; d0; m3; m2; m1; m0] =>
          let days := d1 * 256 + d0 in
          let msInDay := ((m3 * 256 + m2) * 256 + m1) * 256 + m0 in
          Ok (days * MS_PER_DAY + msInDay)
      | Ok _ => Fail InvalidLength
      | Fail e => Fail e
      end
  end.

Definition isSign (c : ascii) : bool := Ascii.eqb c "+" || Ascii.eqb c "-".

(** Greedy scan of section 4.6: the leading run of characters that are not
    signs, then each sign character with the maximal run that follows it. *)
Fixpoint signedRuns (text : string) : string * list (ascii * string) :=
  match text with
  | EmptyString => (EmptyString, [])
  | String c rest =>
      let '(run, runs) := signedRuns rest in
      if isSign c then (EmptyString, (c, run) :: runs)
      else (String c run, runs)
  end.

(** Modelled from the spec: rebuilds the series from the first value and the
    signed deltas; an empty run is a malformed entry. *)
Fixpoint applyDeltas (prev : Z) (runs : list (ascii * string))
  : Decoded (list Z) :=
  match runs with
  | [] => Ok []
  | (sign, run) :: runs' =>
      if String.eqb run EmptyString then Fail InvalidFormat
      else
        match decodeBase62 run with
        | Ok v =>
            let next := if Ascii.eqb sign "+" then prev + v else prev - v in
            match applyDeltas next runs' with
            | Ok l => Ok (next :: l)
            | Fail e => Fail e
            end
        | Fail e => Fail e
        end
  end.

(** Modelled from the spec: the sequence decoder of section 4.6, absent from
    the source.  The empty text is the encoding of the empty series. *)
Definition decodeTimestampSeries (text : string) : Decoded (list Z) :=
  if String.eqb text EmptyString then Ok []
  else
    let '(first, runs) := signedRuns text in
    if String.eqb first EmptyString then Fail InvalidFormat
    else
      match decodeBase62 first with
      | Ok v =>
          match applyDeltas v runs with
          | Ok l => Ok (v :: l)
          | Fail e => Fail e
          end
      | Fail e => Fail e
      end.

(** ** Orderings and predicates used in the statements *)

(** Every character of [text] occurs in [chars]. *)
Fixpoint allIn (chars : string) (text : string) : bool :=
  match text with
  | EmptyString => true
  | String c rest =>
      match indexOf chars c with
      | Some _ => allIn chars rest
      | None => false
      end
  end.

(** [contains c text]: the character [c] occurs in [text]. *)
Fixpoint contains (c : ascii) (text : string) : bool :=
  match text with
  | EmptyString => false
  | String a rest => Ascii.eqb a c || contains c rest
  end.

(** Lexicographic order on texts, characters compared by their index in the
    alphabet (a character outside the alphabet sorts before all others). *)
Definition digitValue (chars : string) (c : ascii) : Z :=
  match indexOf chars c with
  | Some d => d
  | None => -1
  end.

Fixpoint lexLe (chars : string) (s t : string) : bool :=
  match s, t with
  | EmptyString, _ => true
  | String _ _, EmptyString => false
  | String a s', String b t' =>
      match digitValue chars a ?= digitValue chars b with
      | Lt => true
      | Gt => false
      | Eq => lexLe chars s' t'
      end
  end.

(** ** The sequence format in the words of the specification

    [seriesFormat] is section 4.6 read literally: the Base62 encoding of
    [series[0]], then for each [i >= 1] the sign of
    [series[i] - series[i-1]] and the Base62 encoding of its magnitude, with
    nothing in between.  It is compared with [compressTimestampSeries]. *)

Definition deltaEntry (delta : Z) : string :=
  String (if delta >=? 0 then "+"%char else "-"%char)
         (compressMillisBase62 (Z.abs delta)).

(** The same entries, by recursion on the series after its first element:
    [prev] is the element before the head of [rest]. *)
Fixpoint deltaEntries (prev : Z) (rest : list Z) : string :=
  match rest with
  | [] => EmptyString
  | t :: rest' => (deltaEntry (t - prev) ++ deltaEntries t rest')%string
  end.

(** The sign and the digits of each entry, as a decoder reads them back. *)
Fixpoint deltaRuns (prev : Z) (rest : list Z) : list (ascii * string) :=
  match rest with
  | [] => []
  | t :: rest' =>
      ((if t - prev >=? 0 then "+"%char else "-"%char),
       compressMillisBase62 (Z.abs (t - prev))) :: deltaRuns t rest'
  end.

Definition concatAll (parts : list string) : string :=
  fold_right append EmptyString parts.

Definition seriesFormat (series : list Z) : string :=
  (compressMillisBase62 (nth 0 series 0) ++
   concatAll
     (map (fun i => deltaEntry (nth i series 0 - nth (i - 1) series 0))
          (seq 1 (List.length series - 1))))%string.

(** ** The packed form in the words of the specification: an unsigned
    integer written big-endian on two, respectively four, bytes. *)

Definition bigEndian16 (v : Z) : list Z := [v / 256 mod 256; v mod 256].

Definition bigEndian32 (v : Z) : list Z :=
  [v / 16777216 mod 256; v / 65536 mod 256; v / 256 mod 256; v mod 256].

Definition packedForm (days msInDay : Z) : string :=
  toBase64 (bigEndian16 days ++ bigEndian32 msInDay).

(** The characters of printable ASCII: codes 32 (space) to 126. *)
Definition printable (c : ascii) : bool :=
  let n := nat_of_ascii c in (32 <=? n)%nat && (n <=? 126)%nat.

(** Space, double quote, single quote, backslash and backtick. *)
Definition reserved (c : ascii) : bool :=
  let n := nat_of_ascii c in
  (n =? 32)%nat || (n =? 34)%nat || (n =? 39)%nat || (n =? 92)%nat ||
  (n =? 96)%nat.

Definition allAscii : list ascii := map ascii_of_nat (seq 0 256).

(** The characters of an alphabet are pairwise distinct. *)
Fixpoint distinct (chars : string) : bool :=
  match chars with
  | EmptyString => true
  | String c rest => negb (contains c rest) && distinct rest
  end.

(** ** Further functions of the source *)

(** The text a direct encoder returns. *)
Definition directText (codec : DirectCodec) (millis : Z) : string :=
  match codec with
  | Base36 => compressMillisCustom millis
  | Base62 => compressMillisBase62 millis
  | Base94 => compressMillisBase94 millis
  end.

(** The base of a direct encoder: [chars.length]. *)
Definition directBase (codec : DirectCodec) : Z :=
  Z.of_nat (String.length (directChars codec)).

(** Node's [writeBigInt64BE]: a [RangeError] outside the signed 64-bit
    range; otherwise the low and the high 32-bit halves of the two's
    complement are stored byte by byte, least significant byte first, from
    the end of the field towards its start. *)
Definition writeBigInt64BE (buf : Buffer) (value : Z) (offset : nat)
  : Js.completion Buffer :=
  if (value <? -9223372036854775808) || (value >? 9223372036854775807)
  then Js.Throw Js.RangeError
  else
    let lo := Z.land value 4294967295 in
    let buf := setByte buf (offset + 7) lo in
    let lo := Z.shiftr lo 8 in
    let buf := setByte buf (offset + 6) lo in
    let lo := Z.shiftr lo 8 in
    let buf := setByte buf (offset + 5) lo in
    let lo := Z.shiftr lo 8 in
    let buf := setByte buf (offset + 4) lo in
    let hi := Z.land (Z.shiftr value 32) 4294967295 in
    let buf := setByte buf (offset + 3) hi in
    let hi := Z.shiftr hi 8 in
    let buf := setByte buf (offset + 2) hi in
    let hi := Z.shiftr hi 8 in
    let buf := setByte buf (offset + 1) hi in
    let hi := Z.shiftr hi 8 in
    let buf := setByte buf offset hi in
    Js.Return buf.

(** [compressMillisBase64] of time_converter.js and benchmark.js;
    [BigInt(millis)] is the integer itself. *)
Definition compressMillisBase64 (millis : Z) : Js.completion string :=
  let buffer := Buffer_alloc 8 in
  buffer <- writeBigInt64BE buffer millis 0 ;;
  Js.Return (toBase64 buffer).

(** The two's complement of a signed integer on eight big-endian bytes. *)
Definition bigEndian64 (v : Z) : list Z :=
  bigEndian32 (v / 4294967296 mod 4294967296) ++ bigEndian32 (v mod 4294967296).

(** The signed 64-bit integer that eight big-endian bytes hold. *)
Definition int64OfBytes (bytes : list Z) : Z :=
  let u := fold_left (fun acc b => acc * 256 + b) bytes 0 in
  if u <? 9223372036854775808 then u else u - 18446744073709551616.

(** [generateTestTimestamps] of benchmark.js.  [now0] and [now] are the two
    readings of [Date.now()]; the date-only literals are parsed as UTC
    midnights: 2020-01-01 is 1577836800000, 2000-01-01 is 946684800000,
    1980-01-01 is 315532800000, 1970-01-01 is 0 and 2023-01-01 is
    1672531200000. *)
Definition generateTestTimestamps (now0 now : Z) : list Z :=
  let timestamps := [now0] in
  let timestamps := (timestamps ++ [now - 1000 * 60 * 60 * 24 * 1])%list in
  let timestamps := (timestamps ++ [now - 1000 * 60 * 60 * 24 * 7])%list in
  let timestamps := (timestamps ++ [1577836800000])%list in
  let timestamps := (timestamps ++ [946684800000])%list in
  let timestamps := (timestamps ++ [315532800000])%list in
  let timestamps := (timestamps ++ [0 + 100000])%list in
  let timestamps := (timestamps ++ [now + 1000 * 60 * 60 * 24 * 365])%list in
  let timestamps := (timestamps ++ [8640000000000000])%list in
  let start := 1672531200000 in
  fold_left
    (fun timestamps i =>
       (timestamps ++
        [start + Z.of_nat i * (60 * 24 * 60 * 60 * 1000) / (60 * 20)])%list)
    (seq 0 (60 * 20)) timestamps.

(** Every element of [rest] is less than [bound] away from the element
    before it, [prev] being the element before the first. *)
Fixpoint stepsBelow (bound prev : Z) (rest : list Z) : Prop :=
  match rest with
  | [] => True
  | t :: rest' => Z.abs (t - prev) < bound /\ stepsBelow bound t rest'
  end.

(** ** The arithmetic of the source on IEEE binary64

    A JavaScript number is a binary64.  The definitions above compute with
    the integers themselves, which is what the source does as long as every
    number it meets is a safe integer (at most [MAX_SAFE_INTEGER] in
    magnitude).  Beyond that the source rounds.  This module embeds the
    sum, the difference and the floored quotient as binary64 computes them
    on integer-valued numbers (to nearest, ties to even; overflow to
    Infinity, beyond 2^1024, is out of reach of the encoders), and the
    functions of the source whose output depends on that rounding. *)

Definition MAX_SAFE_INTEGER : Z := 9007199254740991.

(** [Number.isSafeInteger]. *)
Definition safeInteger (x : Z) : Prop :=
  - MAX_SAFE_INTEGER <= x <= MAX_SAFE_INTEGER.

Module Binary64.

(** The integer nearest to [num / den], ties to the even one
    ([0 <= num], [0 < den]). *)
Definition roundHalfEven (num den : Z) : Z :=
  let q := num / den in
  let r := num mod den in
  if 2 * r <? den then q
  else if den <? 2 * r then q + 1
  else if Z.even q then q else q + 1.

(** The binary64 nearest to an integer: 53 significant bits (for the
    magnitudes below 2^1024, which have a finite binary64). *)
Definition toDouble (x : Z) : Z :=
  let a := Z.abs x in
  if a <=? 2 ^ 53 then x
  else
    let e := Z.log2 a - 52 in
    Z.sgn x * (roundHalfEven a (2 ^ e) * 2 ^ e).

(** [a - b] and [a + b] on integer-valued numbers. *)
Definition sub (a b : Z) : Z := toDouble (a - b).

Definition add (a b : Z) : Z := toDouble (a + b).

(** [Math.floor(number / base)] for an integer-valued [number] and a
    positive integer [base]: the quotient is rounded to 53 significant bits,
    then floored.  Below the base the quotient lies strictly between -1
    and 1. *)
Definition floorDiv (number base : Z) : Z :=
  let a := Z.abs number in
  if a <? base then (if number <? 0 then -1 else 0)
  else
    let e := Z.log2 (a / base) - 52 in
    if 0 <=? e then
      Z.sgn number * (roundHalfEven a (base * 2 ^ e) * 2 ^ e)
    else
      let s := - e in
      let m := roundHalfEven (a * 2 ^ s) base in
      if number <? 0 then - ((m + 2 ^ s - 1) / 2 ^ s) else m / 2 ^ s.

(** The loop of the encoders; [None] when the fuel does not reach the end
    of the loop. *)
Fixpoint digitLoop (fuel : nat) (chars : string) (result : string) (number : Z)
  : option string :=
  let base := Z.of_nat (String.length chars) in
  let result := Js.concat_left (Js.index chars (Z.rem number base)) result in
  let number := floorDiv number base in
  if number >? 0 then
    match fuel with
    | S fuel' => digitLoop fuel' chars result number
    | O => None
    end
  else Some result.

Definition encodeDigits (chars : string) (number : Z) : option string :=
  digitLoop (loopFuel number) chars EmptyString number.

(** [compressMillisBase62]. *)
Definition compressMillisBase62 (millis : Z) : option string :=
  encodeDigits chars62 millis.

(** [compressMillisVariable]. *)
Definition compressMillisVariable (millis : Z) (referenceDate : option Z)
  : option string :=
  let referenceDate :=
    match referenceDate with Some r => r | None => defaultReferenceDate end in
  let diff := sub millis referenceDate in
  let sign := if diff >=? 0 then "+"%char else "-"%char in
  let absDiff := Z.abs diff in
  option_map (String sign) (encodeDigits chars62 absDiff).

(** [compressTimestampSeries]: the body of the [for] loop on the state
    [(result, prev)], and the loop over the elements after the first. *)
Definition seriesStep (state : option (string * Z)) (timestamp : Z)
  : option (string * Z) :=
  match state with
  | None => None
  | Some (result, prev) =>
      let delta := sub timestamp prev in
      let prev := timestamp in
      match encodeDigits chars62 (Z.abs delta) with
      | None => None
      | Some deltaEncoded =>
          let signChar := if delta >=? 0 then "+"%char else "-"%char in
          Some ((result ++ String signChar deltaEncoded)%string, prev)
      end
  end.

Definition compressTimestampSeries (timestamps : list Z) : option string :=
  match timestamps with
  | [] => Some EmptyString
  | first :: rest =>
      match compressMillisBase62 first with
      | None => None
      | Some result =>
          let prev := first in
          option_map fst (fold_left seriesStep rest (Some (result, prev)))
      end
  end.

(** [compressMillisCustom] and [compressMillisBase94]. *)
Definition compressMillisCustom (millis : Z) : option string :=
  encodeDigits chars36 millis.

Definition compressMillisBase94 (millis : Z) : option string :=
  encodeDigits chars94 millis.

Definition directText (codec : DirectCodec) (millis : Z) : option string :=
  match codec with
  | Base36 => compressMillisCustom millis
  | Base62 => compressMillisBase62 millis
  | Base94 => compressMillisBase94 millis
  end.

(** The series that [processTimestampEnhanced] builds from its timestamp
    and hands to [compressTimestampSeries]. *)
Definition demoSeries (millis : Z) : list Z :=
  [millis; add millis 5000; add millis 12000].

End Binary64.

(** Every element of [rest] differs from the element before it by a safe
    integer, [prev] being the element before the first. *)
Fixpoint safeSteps (prev : Z) (rest : list Z) : Prop :=
  match rest with
  | [] => True
  | t :: rest' => safeInteger (t - prev) /\ safeSteps t rest'
  end.

(** A series the source encodes without rounding: empty, or starting with a
    non-negative safe integer and stepping by safe integers. *)
Definition safeSeries (series : list Z) : Prop :=
  match series with
  | [] => True
  | first :: rest => 0 <= first <= MAX_SAFE_INTEGER /\ safeSteps first rest
  end.

(** ** The digit-alphabet encoder in the words of the specification

    Section 4.1: repeatedly divide [value] by [B], prepending the alphabet
    character at index [value mod B] to the result, until the quotient is 0;
    the value 0 yields the single character at index 0.  It is defined for a
    non-negative value and an alphabet of at least two characters (the
    specification fails otherwise), and it is what the statements below
    mean by the Base62 encoding of a value. *)

Definition alphabetChar (alphabet : string) (digit : Z) : ascii :=
  match String.get (Z.to_nat digit) alphabet with
  | Some c => c
  | None => "000"%char
  end.

Fixpoint specDivide (steps : nat) (alphabet : string) (value : Z)
  (text : string) : string :=
  let B := Z.of_nat (String.length alphabet) in
  let text := String (alphabetChar alphabet (value mod B)) text in
  let quotient := value / B in
  match steps with
  | O => text
  | S steps' =>
      if quotient =? 0 then text
      else specDivide steps' alphabet quotient text
  end.

Definition specEncode (alphabet : string) (value : Z) : string :=
  specDivide (Z.to_nat (Z.log2 value)) alphabet value EmptyString.

(** The entry of a delta, the entries of a series and the whole text in the
    words of section 4.6, on the encoder of section 4.1. *)
Definition specEntry (delta : Z) : string :=
  String (if delta >=? 0 then "+"%char else "-"%char)
         (specEncode chars62 (Z.abs delta)).

Definition specSeries (series : list Z) : string :=
  (specEncode chars62 (nth 0 series 0) ++
   concatAll
     (map (fun i => specEntry (nth i series 0 - nth (i - 1) series 0))
          (seq 1 (List.length series - 1))))%string.

(* ================================================================== *)
(** * Properties of the shared loop *)
(* ================================================================== *)

Lemma concat_left_app x r t :
  (Js.concat_left x r ++ t)%string = Js.concat_left x (r ++ t)%string.
Proof. destruct x; reflexivity. Qed.

Lemma string_app_assoc (a b c : string) :
  ((a ++ b) ++ c)%string = (a ++ (b ++ c))%string.
Proof. induction a as [|x a IH]; simpl; [reflexivity | now rewrite IH]. Qed.

Lemma string_app_nil_r (a : string) : (a ++ EmptyString)%string = a.
Proof. induction a as [|x a IH]; simpl; [reflexivity | now rewrite IH]. Qed.

Lemma string_length_app (a b : string) :
  String.length (a ++ b) = (String.length a + String.length b)%nat.
Proof. induction a as [|x a IH]; simpl; [reflexivity | now rewrite IH]. Qed.

Section DigitLoop.

Variable chars : string.
Local Notation "'base'" := (Z.of_nat (String.length chars)).
Hypothesis base_ge_2 : 2 <= base.

Lemma quotient_small number : Z.log2 number <= 0 -> number / base <= 0.
Proof.
  intros Hlog.
  destruct (Z_lt_le_dec number 2) as [Hlt | Hge].
  - assert (number / base < 1); [| lia].
    apply Z.div_lt_upper_bound; lia.
  - assert (1 <= Z.log2 number); [| lia].
    change 1 with (Z.log2 2). now apply Z.log2_le_mono.
Qed.

Lemma log2_quotient number :
  0 < number / base -> Z.log2 (number / base) < Z.log2 number.
Proof.
  intros Hq.
  assert (Hn : 0 < number).
  { destruct (Z_lt_le_dec 0 number) as [|Hneg]; [assumption|].
    assert (number / base <= 0); [| lia].
    apply Z.div_le_upper_bound; lia. }
  apply Z.log2_lt_pow2; [assumption|].
  assert (Hlog : 0 <= Z.log2 number) by apply Z.log2_nonneg.
  destruct (Z.log2_spec number Hn) as [_ Hup].
  rewrite Z.pow_succ_r in Hup by assumption.
  apply Z.div_lt_upper_bound; [lia|]. nia.
Qed.

(** Any fuel of at least [loopFuel number] gives the same result: the
    loop has stopped by then. *)
Lemma digitLoop_fuel fuel1 :
  forall fuel2 result number,
    (loopFuel number <= fuel1)%nat -> (loopFuel number <= fuel2)%nat ->
    digitLoop fuel1 chars result number = digitLoop fuel2 chars result number.
Proof.
  unfold loopFuel.
  induction fuel1 as [|fuel1 IH]; intros [|fuel2] result number H1 H2;
    simpl; try reflexivity.
  - destruct (number / base >? 0) eqn:Hq; [|reflexivity].
    apply Z.gtb_lt in Hq.
    pose proof (quotient_small number) as Hs.
    pose proof (Z.log2_nonneg number). lia.
  - destruct (number / base >? 0) eqn:Hq; [|reflexivity].
    apply Z.gtb_lt in Hq.
    pose proof (quotient_small number) as Hs.
    pose proof (Z.log2_nonneg number). lia.
  - destruct (number / base >? 0) eqn:Hq; [|reflexivity].
    apply Z.gtb_lt in Hq.
    pose proof (log2_quotient number Hq).
    pose proof (Z.log2_nonneg (number / base)).
    apply IH; lia.
Qed.

(** The equation of the [do ... while] loop. *)
Lemma digitLoop_unfold result number :
  encodeFrom chars result number =
  let result' :=
    Js.concat_left (Js.index chars (Z.rem number base)) result in
  let number' := number / base in
  if number' >? 0 then encodeFrom chars result' number' else result'.
Proof.
  unfold encodeFrom.
  rewrite (digitLoop_fuel (loopFuel number) (S (loopFuel number)))
    by lia.
  simpl. destruct (number / base >? 0) eqn:Hq; [|reflexivity].
  apply Z.gtb_lt in Hq.
  apply digitLoop_fuel; [| lia].
  pose proof (log2_quotient number Hq).
  pose proof (Z.log2_nonneg (number / base)).
  unfold loopFuel. lia.
Qed.

Lemma digitLoop_result fuel :
  forall result number,
    digitLoop fuel chars result number =
    (digitLoop fuel chars EmptyString number ++ result)%string.
Proof.
  induction fuel as [|fuel IH]; intros result number; simpl.
  - now rewrite concat_left_app.
  - destruct (number / base >? 0).
    + rewrite IH.
      rewrite (IH (Js.concat_left _ EmptyString)).
      now rewrite string_app_assoc, concat_left_app.
    + now rewrite concat_left_app.
Qed.

Lemma encodeFrom_result result number :
  encodeFrom chars result number =
  (encodeDigits chars number ++ result)%string.
Proof. apply digitLoop_result. Qed.

(** A number below the base is written as one digit. *)
Lemma encodeDigits_small number :
  number / base <= 0 ->
  encodeDigits chars number =
  Js.concat_left (Js.index chars (Z.rem number base)) EmptyString.
Proof.
  intros Hq. unfold encodeDigits. rewrite digitLoop_unfold. simpl.
  destruct (number / base >? 0) eqn:E; [|reflexivity].
  apply Z.gtb_lt in E. lia.
Qed.

(** A larger number is written as its quotient followed by its last digit. *)
Lemma encodeDigits_step number :
  0 < number / base ->
  encodeDigits chars number =
  (encodeDigits chars (number / base) ++
   Js.concat_left (Js.index chars (Z.rem number base)) EmptyString)%string.
Proof.
  intros Hq. unfold encodeDigits at 1. rewrite digitLoop_unfold. simpl.
  destruct (number / base >? 0) eqn:E.
  - apply encodeFrom_result.
  - rewrite Z.gtb_ltb in E. apply Z.ltb_ge in E. lia.
Qed.

End DigitLoop.

(* ================================================================== *)
(** * Alphabets with distinct characters: decoding inverts encoding *)
(* ================================================================== *)

Lemma get_in_range (s : string) :
  forall i, (i < String.length s)%nat -> exists c, String.get i s = Some c.
Proof.
  induction s as [|a s IH]; intros i Hi; simpl in *; [lia|].
  destruct i as [|i]; [now exists a|]. apply IH. lia.
Qed.

Lemma get_contains (s : string) :
  forall i c, String.get i s = Some c -> contains c s = true.
Proof.
  induction s as [|a s IH]; intros i c Hget; simpl in *; [discriminate|].
  destruct i as [|i].
  - injection Hget as ->. now rewrite Ascii.eqb_refl.
  - rewrite (IH _ _ Hget). apply orb_true_r.
Qed.

Lemma indexOf_get (s : string) :
  distinct s = true ->
  forall i c, String.get i s = Some c -> indexOf s c = Some (Z.of_nat i).
Proof.
  induction s as [|a s IH]; intros Hd i c Hget; simpl in *; [discriminate|].
  apply andb_true_iff in Hd as [Hnot Hd].
  destruct i as [|i].
  - injection Hget as ->. now rewrite Ascii.eqb_refl.
  - destruct (Ascii.eqb a c) eqn:E.
    + apply Ascii.eqb_eq in E. subst c.
      rewrite (get_contains _ _ _ Hget) in Hnot. discriminate.
    + rewrite (IH Hd _ _ Hget). simpl. f_equal. lia.
Qed.

Lemma indexOf_range (s : string) :
  forall c d, indexOf s c = Some d -> 0 <= d < Z.of_nat (String.length s).
Proof.
  induction s as [|a s IH]; intros c d H; simpl in H; [discriminate|].
  change (String.length (String a s)) with (S (String.length s)).
  destruct (Ascii.eqb a c).
  - injection H as <-. lia.
  - destruct (indexOf s c) as [d'|] eqn:E; [|discriminate].
    injection H as <-. specialize (IH _ _ E). lia.
Qed.

Lemma decodeFrom_app chars (s t : string) :
  forall acc,
    decodeFrom chars acc (s ++ t) =
    match decodeFrom chars acc s with
    | Ok v => decodeFrom chars v t
    | Fail e => Fail e
    end.
Proof.
  induction s as [|a s IH]; intros acc; simpl; [reflexivity|].
  destruct (indexOf chars a); [apply IH | reflexivity].
Qed.

Lemma allIn_app chars (s t : string) :
  allIn chars (s ++ t) = allIn chars s && allIn chars t.
Proof.
  induction s as [|a s IH]; simpl; [reflexivity|].
  destruct (indexOf chars a); [apply IH | reflexivity].
Qed.

Section Alphabet.

Variable chars : string.
Local Notation "'base'" := (Z.of_nat (String.length chars)).
Hypothesis base_ge_2 : 2 <= base.
Hypothesis chars_distinct : distinct chars = true.

(** The digit [d] is written as the character at position [d], and that
    character is read back as [d]. *)
Lemma digit_char d :
  0 <= d < base ->
  exists c, Js.index chars d = Some c /\ indexOf chars c = Some d.
Proof.
  intros Hd. unfold Js.index.
  destruct (d <? 0) eqn:E; [apply Z.ltb_lt in E; lia|].
  destruct (get_in_range chars (Z.to_nat d)) as [c Hc]; [lia|].
  exists c. split; [assumption|].
  rewrite (indexOf_get _ chars_distinct _ _ Hc). f_equal. lia.
Qed.

Lemma last_digit number :
  0 <= number ->
  exists c, Js.index chars (Z.rem number base) = Some c /\
            indexOf chars c = Some (number mod base).
Proof.
  intros Hn. rewrite Z.rem_mod_nonneg by lia.
  apply digit_char. apply Z.mod_pos_bound. lia.
Qed.

(** Decoding is a left inverse of the encoding loop on the non-negative
    integers. *)
Lemma decode_encode number :
  0 <= number ->
  decodeDigits chars (encodeDigits chars number) = Ok number.
Proof.
  intros Hn. generalize Hn. pattern number.
  apply Z_lt_induction; [|assumption].
  clear number Hn. intros n IH Hn.
  destruct (last_digit n Hn) as (c & Hc & Hidx).
  unfold decodeDigits.
  destruct (Z_lt_le_dec 0 (n / base)) as [Hq | Hq].
  - rewrite (encodeDigits_step chars base_ge_2 n Hq), Hc.
    rewrite decodeFrom_app.
    assert (Hlt : 0 <= n / base < n).
    { assert (n <> 0) by (intros ->; rewrite Zdiv_0_l in Hq; lia).
      split; [lia|]. apply Z.div_lt; lia. }
    fold (decodeDigits chars (encodeDigits chars (n / base))).
    rewrite (IH _ Hlt) by lia. simpl. rewrite Hidx. f_equal.
    rewrite (Z.mul_comm (n / base)). symmetry. apply Z.div_mod. lia.
  - rewrite (encodeDigits_small chars base_ge_2 n Hq), Hc. simpl.
    rewrite Hidx. f_equal.
    assert (Hz : n / base = 0).
    { pose proof (Z.div_pos n base). lia. }
    rewrite (Z.div_mod n base) at 2 by lia. rewrite Hz. lia.
Qed.

(** The encoding loop writes characters of the alphabet only. *)
Lemma encode_allIn number :
  0 <= number -> allIn chars (encodeDigits chars number) = true.
Proof.
  intros Hn. generalize Hn. pattern number.
  apply Z_lt_induction; [|assumption].
  clear number Hn. intros n IH Hn.
  destruct (last_digit n Hn) as (c & Hc & Hidx).
  destruct (Z_lt_le_dec 0 (n / base)) as [Hq | Hq].
  - rewrite (encodeDigits_step chars base_ge_2 n Hq), Hc, allIn_app.
    assert (Hlt : 0 <= n / base < n).
    { assert (n <> 0) by (intros ->; rewrite Zdiv_0_l in Hq; lia).
      split; [lia|]. apply Z.div_lt; lia. }
    rewrite (IH _ Hlt) by lia. simpl. now rewrite Hidx.
  - rewrite (encodeDigits_small chars base_ge_2 n Hq), Hc. simpl.
    now rewrite Hidx.
Qed.

(** The encoding loop is injective on the non-negative integers. *)
Lemma encode_injective v w :
  0 <= v -> 0 <= w ->
  encodeDigits chars v = encodeDigits chars w -> v = w.
Proof.
  intros Hv Hw Heq.
  pose proof (decode_encode v Hv) as Dv.
  pose proof (decode_encode w Hw) as Dw.
  rewrite Heq in Dv. rewrite Dv in Dw. now injection Dw.
Qed.

(** The value of a text over the alphabet: the accumulator is shifted by
    the length of the text, and the digits add less than one unit of it. *)
Lemma decodeFrom_value (s : string) :
  allIn chars s = true ->
  exists v,
    0 <= v < base ^ Z.of_nat (String.length s) /\
    forall acc,
      decodeFrom chars acc s =
      Ok (acc * base ^ Z.of_nat (String.length s) + v).
Proof.
  induction s as [|a s IH]; intros Hall.
  - exists 0. split; [simpl; lia|]. intros acc. simpl. f_equal. lia.
  - simpl in Hall. destruct (indexOf chars a) as [d|] eqn:Hd; [|discriminate].
    destruct (IH Hall) as (v & Hv & Hdec).
    pose proof (indexOf_range _ _ _ Hd) as Hrange.
    change (String.length (String a s)) with (S (String.length s)).
    rewrite Nat2Z.inj_succ, Z.pow_succ_r by lia.
    set (p := base ^ Z.of_nat (String.length s)) in *.
    exists (d * p + v). split; [nia|].
    intros acc. simpl. rewrite Hd, Hdec. f_equal. ring.
Qed.

(** Among texts of one length, the numeric order of the values is the
    lexicographic order of the digits. *)
Lemma lexLe_of_le (s : string) :
  forall t vs vt,
    String.length s = String.length t ->
    allIn chars s = true -> allIn chars t = true ->
    decodeDigits chars s = Ok vs -> decodeDigits chars t = Ok vt ->
    vs <= vt ->
    lexLe chars s t = true.
Proof.
  induction s as [|a s IH]; intros [|b t] vs vt Hlen Hs Ht Ds Dt Hle;
    simpl in *; try reflexivity; try discriminate.
  unfold digitValue.
  destruct (indexOf chars a) as [da|] eqn:Ha; [|discriminate].
  destruct (indexOf chars b) as [db|] eqn:Hb; [|discriminate].
  destruct (decodeFrom_value s Hs) as (v1 & Hv1 & D1).
  destruct (decodeFrom_value t Ht) as (v2 & Hv2 & D2).
  unfold decodeDigits in Ds, Dt. simpl in Ds, Dt.
  rewrite Ha, D1 in Ds. rewrite Hb, D2 in Dt.
  injection Ds as <-. injection Dt as <-.
  injection Hlen as Hlen. rewrite <- Hlen in *.
  set (p := base ^ Z.of_nat (String.length s)) in *.
  pose proof (indexOf_range _ _ _ Ha). pose proof (indexOf_range _ _ _ Hb).
  destruct (da ?= db) eqn:Hcmp.
  - apply Z.compare_eq in Hcmp. subst db.
    apply (IH t v1 v2); try assumption.
    + unfold decodeDigits. rewrite D1. f_equal; lia.
    + unfold decodeDigits. rewrite D2. f_equal; lia.
    + lia.
  - reflexivity.
  - exfalso. apply Z.compare_gt_iff in Hcmp. nia.
Qed.

Lemma encode_monotone a b :
  0 <= a <= b ->
  String.length (encodeDigits chars a) = String.length (encodeDigits chars b) ->
  lexLe chars (encodeDigits chars a) (encodeDigits chars b) = true.
Proof.
  intros Hab Hlen.
  apply (lexLe_of_le _ _ a b); try assumption.
  - apply encode_allIn; lia.
  - apply encode_allIn; lia.
  - apply decode_encode; lia.
  - apply decode_encode; lia.
  - lia.
Qed.

End Alphabet.

(* ================================================================== *)
(** * The alphabets of the source *)
(* ================================================================== *)

Lemma chars36_base : 2 <= Z.of_nat (String.length chars36).
Proof. simpl. lia. Qed.

Lemma chars36_distinct : distinct chars36 = true.
Proof. reflexivity. Qed.

Lemma chars62_base : 2 <= Z.of_nat (String.length chars62).
Proof. simpl. lia. Qed.

Lemma chars62_distinct : distinct chars62 = true.
Proof. reflexivity. Qed.

Lemma chars94_base : 2 <= Z.of_nat (String.length chars94).
Proof. simpl. lia. Qed.

Lemma chars94_distinct : distinct chars94 = true.
Proof. reflexivity. Qed.

Lemma base62_decode_encode v :
  0 <= v -> decodeBase62 (compressMillisBase62 v) = Ok v.
Proof. apply (decode_encode chars62 chars62_base chars62_distinct). Qed.

Lemma base62_allIn v : 0 <= v -> allIn chars62 (compressMillisBase62 v) = true.
Proof. apply (encode_allIn chars62 chars62_base chars62_distinct). Qed.

(** A character of a text over an alphabet is a character of the alphabet. *)
Lemma allIn_contains chars (s : string) c :
  allIn chars s = true -> contains c s = true -> indexOf chars c <> None.
Proof.
  induction s as [|a s IH]; simpl; [discriminate|].
  destruct (indexOf chars a) eqn:Ha; [|discriminate].
  intros Hall Hc. apply orb_true_iff in Hc as [Hc | Hc].
  - apply Ascii.eqb_eq in Hc. subst a. now rewrite Ha.
  - now apply IH.
Qed.


Lemma contains_false_outside chars (s : string) c :
  allIn chars s = true -> indexOf chars c = None -> contains c s = false.
Proof.
  intros Hall Hnone. destruct (contains c s) eqn:E; [|reflexivity].
  exfalso. now apply (allIn_contains chars s c Hall E).
Qed.

(* ================================================================== *)
(** * Claims about the Base62 encoder *)
(* ================================================================== *)





(* ================================================================== *)
(** * Negative inputs of the direct codecs *)
(* ================================================================== *)

(** On a negative number the loop runs once: the quotient is negative. *)
Lemma encodeDigits_negative chars number :
  2 <= Z.of_nat (String.length chars) -> number < 0 ->
  encodeDigits chars number =
  Js.concat_left
    (Js.index chars (Z.rem number (Z.of_nat (String.length chars))))
    EmptyString.
Proof.
  intros Hb Hn. apply encodeDigits_small; [assumption|].
  assert (number / Z.of_nat (String.length chars) < 0); [|lia].
  apply Z.div_lt_upper_bound; lia.
Qed.

Lemma index_negative chars i : i < 0 -> Js.index chars i = None.
Proof.
  intros Hi. unfold Js.index.
  destruct (i <? 0) eqn:E; [reflexivity|]. apply Z.ltb_ge in E. lia.
Qed.

Lemma directChars_base codec : 2 <= Z.of_nat (String.length (directChars codec)).
Proof. destruct codec; simpl; lia. Qed.

Lemma directEncode_loop codec millis :
  directEncode codec millis =
  Js.Return (encodeDigits (directChars codec) millis).
Proof. destruct codec; reflexivity. Qed.

(** C5, as the code has it: for every negative timestamp each direct encoder
    (Base36, Base62, Base94) completes normally, without any error: it makes
    no sign check, its loop runs once, and it returns "0" when the timestamp
    is a multiple of the base and "undefined" otherwise. *)
Theorem direct_encode_negative (codec : DirectCodec) (ts : Z) :
  ts < 0 ->
  directEncode codec ts =
  Js.Return
    (if Z.rem ts (Z.of_nat (String.length (directChars codec))) =? 0
     then "0"%string else "undefined"%string).
Proof.
  intros Hts. rewrite directEncode_loop. f_equal.
  rewrite (encodeDigits_negative _ _ (directChars_base codec) Hts).
  set (base := Z.of_nat (String.length (directChars codec))).
  pose proof (directChars_base codec) as Hb. fold base in Hb.
  destruct (Z.rem ts base =? 0) eqn:E.
  - apply Z.eqb_eq in E. rewrite E. destruct codec; reflexivity.
  - apply Z.eqb_neq in E.
    rewrite index_negative; [reflexivity|].
    pose proof (Z.rem_nonpos ts base). lia.
Qed.

Lemma direct_encode_negative_witness :
  directEncode Base62 (-1) = Js.Return "undefined"%string.
Proof.
  apply (direct_encode_negative Base62 (-1)). lia.
Defined.

(** C5 as stated fails: a negative timestamp does not make the direct
    encoders fail; this one returns the text "undefined". *)
Lemma direct_encode_negative_no_error :
  ~ (forall codec ts, ts < 0 -> exists e, directEncode codec ts = Js.Throw e).
Proof.
  intros H. destruct (H Base62 (-1)) as [e He]; [lia|]. discriminate He.
Qed.

(* ================================================================== *)
(** * The alphabet of the Base94 encoder *)
(* ================================================================== *)

(** C4, evaluated on the code: the alphabet literal of
    [compressMillisBase94] holds 90 characters, not 94: they are pairwise
    distinct and are exactly the printable ASCII characters other than
    space, double quote, single quote, backslash and backtick.  The base,
    [chars.length], is therefore 90: 90 is written with two digits, and the
    largest single digit is 89. *)
Theorem base94_alphabet_has_90_characters :
  String.length chars94 = 90%nat /\
  distinct chars94 = true /\
  forallb (fun c => Bool.eqb (contains c chars94)
                             (printable c && negb (reserved c))) allAscii
  = true /\
  compressMillisBase94 89 = "~"%string /\
  compressMillisBase94 90 = "10"%string /\
  compressMillisBase94 93 = "13"%string.
Proof. repeat split; reflexivity. Qed.

(* ================================================================== *)
(** * The sequence codec *)
(* ================================================================== *)

Lemma seriesStep_fold (rest : list Z) :
  forall result prev,
    fst (fold_left seriesStep rest (result, prev)) =
    (result ++ deltaEntries prev rest)%string.
Proof.
  induction rest as [|t rest IH]; intros result prev; simpl.
  - now rewrite string_app_nil_r.
  - rewrite IH. now rewrite string_app_assoc.
Qed.

Lemma compressTimestampSeries_entries first rest :
  compressTimestampSeries (first :: rest) =
  (compressMillisBase62 first ++ deltaEntries first rest)%string.
Proof. apply seriesStep_fold. Qed.

Lemma deltaEntries_indexed (rest : list Z) :
  forall prev,
    deltaEntries prev rest =
    concatAll
      (map (fun i => deltaEntry (nth i (prev :: rest) 0 -
                                 nth (i - 1) (prev :: rest) 0))
           (seq 1 (List.length rest))).
Proof.
  induction rest as [|t rest IH]; intros prev; [reflexivity|].
  cbn [deltaEntries List.length seq map concatAll fold_right].
  f_equal. rewrite IH. unfold concatAll. f_equal.
  rewrite <- (seq_shift (List.length rest) 1), map_map.
  apply map_ext_in. intros i Hi. apply in_seq in Hi.
  destruct i as [|i]; [lia|].
  cbn [nth]. replace (S (S i) - 1)%nat with (S (S i - 1)) by lia.
  reflexivity.
Qed.

(* ================================================================== *)
(** * The fixed-width binary codec *)
(* ================================================================== *)

Lemma land_255 v : Z.land v 255 = v mod 256.
Proof. change 255 with (Z.ones 8). now rewrite Z.land_ones by lia. Qed.

Lemma shiftr_8 v : Z.shiftr v 8 = v / 256.
Proof. now rewrite Z.shiftr_div_pow2 by lia. Qed.

Lemma writeUInt16BE_alloc b0 b1 rest v :
  0 <= v <= 65535 ->
  writeUInt16BE (b0 :: b1 :: rest) v 0 =
  Js.Return (bigEndian16 v ++ rest)%list.
Proof.
  intros Hv. unfold writeUInt16BE.
  replace ((v <? 0) || (v >? 65535)) with false.
  - cbn [setByte Nat.add]. now rewrite !land_255, shiftr_8.
  - symmetry. apply orb_false_iff. split; [apply Z.ltb_ge | rewrite Z.gtb_ltb; apply Z.ltb_ge]; lia.
Qed.

Lemma writeUInt32BE_alloc a0 a1 b0 b1 b2 b3 v :
  0 <= v <= 4294967295 ->
  writeUInt32BE [a0; a1; b0; b1; b2; b3] v 2 =
  Js.Return ([a0; a1] ++ bigEndian32 v)%list.
Proof.
  intros Hv. unfold writeUInt32BE.
  replace ((v <? 0) || (v >? 4294967295)) with false.
  - cbn [setByte Nat.add]. rewrite !land_255, !shiftr_8.
    rewrite !Z.div_div by lia. reflexivity.
  - symmetry. apply orb_false_iff. split; [apply Z.ltb_ge | rewrite Z.gtb_ltb; apply Z.ltb_ge]; lia.
Qed.

(** Within the 16-bit day range a non-negative timestamp is written in the
    packed form. *)
Lemma bitPacked_packed ts :
  0 <= ts -> ts / MS_PER_DAY <= 65535 ->
  compressMillisBitPacked ts =
  Js.Return (packedForm (ts / MS_PER_DAY) (ts mod MS_PER_DAY)).
Proof.
  intros Hts Hdays. unfold compressMillisBitPacked.
  destruct (ts / MS_PER_DAY >? 65535) eqn:E.
  { apply Z.gtb_lt in E. lia. }
  assert (Hd : 0 <= ts / MS_PER_DAY) by (apply Z.div_pos; unfold MS_PER_DAY; lia).
  rewrite Z.rem_mod_nonneg by (unfold MS_PER_DAY; lia).
  assert (Hm : 0 <= ts mod MS_PER_DAY < MS_PER_DAY)
    by (apply Z.mod_pos_bound; unfold MS_PER_DAY; lia).
  unfold Buffer_alloc. cbn [repeat].
  rewrite (writeUInt16BE_alloc 0 0 [0; 0; 0; 0] (ts / MS_PER_DAY))
    by lia.
  cbn [Js.bind bigEndian16 app].
  rewrite writeUInt32BE_alloc by (unfold MS_PER_DAY in *; lia).
  reflexivity.
Qed.

(** Beyond the 16-bit day range the fallback is emitted. *)
Lemma bitPacked_fallback ts :
  ts / MS_PER_DAY > 65535 ->
  compressMillisBitPacked ts = Js.Return ("F_" ++ compressMillisBase62 ts)%string.
Proof.
  intros Hdays. unfold compressMillisBitPacked.
  destruct (ts / MS_PER_DAY >? 65535) eqn:E; [reflexivity|].
  rewrite Z.gtb_ltb in E. apply Z.ltb_ge in E. lia.
Qed.

(** Before the epoch the day number does not fit the unsigned field. *)
Lemma bitPacked_negative ts :
  ts < 0 -> compressMillisBitPacked ts = Js.Throw Js.RangeError.
Proof.
  intros Hts. unfold compressMillisBitPacked.
  assert (Hd : ts / MS_PER_DAY < 0)
    by (apply Z.div_lt_upper_bound; unfold MS_PER_DAY; lia).
  destruct (ts / MS_PER_DAY >? 65535) eqn:E.
  { apply Z.gtb_lt in E. lia. }
  unfold writeUInt16BE.
  replace (ts / MS_PER_DAY <? 0) with true; [reflexivity|].
  symmetry. now apply Z.ltb_lt.
Qed.

Lemma index_contains chars i c :
  Js.index chars i = Some c -> contains c chars = true.
Proof.
  unfold Js.index. destruct (i <? 0); [discriminate|]. apply get_contains.
Qed.

Lemma base64Digit_not_underscore i : base64Digit i <> "_"%char.
Proof.
  unfold base64Digit. destruct (Js.index base64Chars i) as [c|] eqn:E.
  - intros ->. apply index_contains in E. discriminate E.
  - discriminate.
Qed.

Lemma packedForm_second days ms :
  exists c0 c1 rest,
    packedForm days ms = String c0 (String c1 rest) /\ c1 <> "_"%char.
Proof.
  unfold packedForm, bigEndian16, bigEndian32. cbn [app toBase64].
  do 3 eexists. split; [reflexivity|]. apply base64Digit_not_underscore.
Qed.


(* ================================================================== *)
(** * Round trips through the documented decoders *)
(* ================================================================== *)

(** The loop writes at least one character. *)
Lemma encodeDigits_nonempty chars number :
  2 <= Z.of_nat (String.length chars) ->
  String.eqb (encodeDigits chars number) EmptyString = false.
Proof.
  intros Hb.
  assert (Hcl : forall x r, String.eqb (Js.concat_left x r) EmptyString = false)
    by (intros [c|] r; reflexivity).
  assert (Happ : forall s t, String.eqb t EmptyString = false ->
                             String.eqb (s ++ t) EmptyString = false).
  { intros [|a s] t Ht; [exact Ht | reflexivity]. }
  destruct (Z_lt_le_dec 0 (number / Z.of_nat (String.length chars))) as [Hq|Hq].
  - rewrite (encodeDigits_step chars Hb number Hq). apply Happ, Hcl.
  - rewrite (encodeDigits_small chars Hb number Hq). apply Hcl.
Qed.

Lemma variable_roundtrip ts referenceDate :
  decodeVariable (compressMillisVariable ts referenceDate) referenceDate =
  Ok ts.
Proof.
  unfold compressMillisVariable, decodeVariable.
  set (r := match referenceDate with Some r => r | None => _ end).
  fold (compressMillisBase62 (Z.abs (ts - r))).
  destruct (ts - r >=? 0) eqn:E.
  - cbn [Ascii.eqb Bool.eqb]. rewrite base62_decode_encode by lia.
    f_equal. rewrite Z.geb_leb in E. apply Z.leb_le in E. lia.
  - cbn [Ascii.eqb Bool.eqb]. rewrite base62_decode_encode by lia.
    f_equal. rewrite Z.geb_leb in E. apply Z.leb_gt in E. lia.
Qed.

Lemma splitFirst_app (sep : ascii) (l r : string) :
  contains sep l = false ->
  splitFirst sep (l ++ String sep r) = Some (l, r).
Proof.
  induction l as [|a l IH]; simpl; intros Hc.
  - now rewrite Ascii.eqb_refl.
  - apply orb_false_iff in Hc as [Ha Hl]. rewrite Ha, (IH Hl). reflexivity.
Qed.

Lemma base64Chars_base : 2 <= Z.of_nat (String.length base64Chars).
Proof. simpl. lia. Qed.

Lemma base64Digit_index i :
  0 <= i < 64 ->
  indexOf base64Chars (base64Digit i) = Some i /\
  Ascii.eqb (base64Digit i) "=" = false.
Proof.
  intros Hi.
  destruct (digit_char base64Chars base64Chars_base eq_refl i) as (c & Hc & Hidx);
    [simpl; lia|].
  unfold base64Digit. rewrite Hc. split; [assumption|].
  destruct (Ascii.eqb c "=") eqn:E; [|reflexivity].
  apply Ascii.eqb_eq in E. subst c.
  apply index_contains in Hc. discriminate Hc.
Qed.

Lemma fromBase64_step c0 c1 c2 c3 rest i0 i1 i2 i3 :
  indexOf base64Chars c0 = Some i0 -> indexOf base64Chars c1 = Some i1 ->
  indexOf base64Chars c2 = Some i2 -> indexOf base64Chars c3 = Some i3 ->
  Ascii.eqb c2 "=" = false -> Ascii.eqb c3 "=" = false ->
  fromBase64 (String c0 (String c1 (String c2 (String c3 rest)))) =
  let m := ((i0 * 64 + i1) * 64 + i2) * 64 + i3 in
  match fromBase64 rest with
  | Ok bytes => Ok (m / 65536 :: m / 256 mod 256 :: m mod 256 :: bytes)
  | Fail e => Fail e
  end.
Proof.
  intros H0 H1 H2 H3 E2 E3. cbn [fromBase64].
  rewrite H0, H1, H2, H3, E2, E3. reflexivity.
Qed.

(** Three bytes survive the passage through four base64 digits. *)
Lemma fromBase64_group a b c rest :
  0 <= a < 256 -> 0 <= b < 256 -> 0 <= c < 256 ->
  fromBase64 (toBase64 (a :: b :: c :: rest)) =
  match fromBase64 (toBase64 rest) with
  | Ok bytes => Ok (a :: b :: c :: bytes)
  | Fail e => Fail e
  end.
Proof.
  intros Ha Hb Hc. cbn [toBase64].
  set (n := a * 65536 + b * 256 + c).
  assert (Hn : 0 <= n < 16777216) by (unfold n; lia).
  assert (R0 : 0 <= n / 262144 < 64)
    by (split; [apply Z.div_pos | apply Z.div_lt_upper_bound]; lia).
  assert (R1 : 0 <= n / 4096 mod 64 < 64) by (apply Z.mod_pos_bound; lia).
  assert (R2 : 0 <= n / 64 mod 64 < 64) by (apply Z.mod_pos_bound; lia).
  assert (R3 : 0 <= n mod 64 < 64) by (apply Z.mod_pos_bound; lia).
  destruct (base64Digit_index _ R0) as [I0 _].
  destruct (base64Digit_index _ R1) as [I1 _].
  destruct (base64Digit_index _ R2) as [I2 E2].
  destruct (base64Digit_index _ R3) as [I3 E3].
  rewrite (fromBase64_step _ _ _ _ _ _ _ _ _ I0 I1 I2 I3 E2 E3).
  cbv zeta.
  assert (Hm : ((n / 262144 * 64 + n / 4096 mod 64) * 64 + n / 64 mod 64) * 64
               + n mod 64 = n).
  { clear - Hn. Z.div_mod_to_equations. lia. }
  rewrite Hm.
  assert (Ba : n / 65536 = a) by (unfold n; Z.div_mod_to_equations; lia).
  assert (Bb : n / 256 mod 256 = b) by (unfold n; Z.div_mod_to_equations; lia).
  assert (Bc : n mod 256 = c) by (unfold n; Z.div_mod_to_equations; lia).
  rewrite Ba, Bb, Bc. reflexivity.
Qed.

Lemma stripMarker_packed days ms : stripMarker (packedForm days ms) = None.
Proof.
  destruct (packedForm_second days ms) as (c0 & c1 & rest & Hform & Hc1).
  rewrite Hform. unfold stripMarker.
  destruct (Ascii.eqb c1 "_") eqn:E.
  - apply Ascii.eqb_eq in E. contradiction.
  - now rewrite andb_false_r.
Qed.

Lemma packed_roundtrip days ms :
  0 <= days <= 65535 -> 0 <= ms <= 4294967295 ->
  decodeBitPacked (packedForm days ms) = Ok (days * MS_PER_DAY + ms).
Proof.
  intros Hd Hm. unfold decodeBitPacked. rewrite stripMarker_packed.
  unfold packedForm, bigEndian16, bigEndian32. cbn [app].
  rewrite !fromBase64_group by (apply Z.mod_pos_bound; lia).
  cbn [toBase64 fromBase64]. f_equal.
  assert (Hdays : days / 256 mod 256 * 256 + days mod 256 = days)
    by (Z.div_mod_to_equations; lia).
  assert (Hms : ((ms / 16777216 mod 256 * 256 + ms / 65536 mod 256) * 256
                 + ms / 256 mod 256) * 256 + ms mod 256 = ms)
    by (Z.div_mod_to_equations; lia).
  rewrite Hdays, Hms. reflexivity.
Qed.

Lemma stripMarker_fallback rest :
  stripMarker ("F_" ++ rest) = Some rest.
Proof. reflexivity. Qed.

Lemma bitPacked_roundtrip ts :
  0 <= ts ->
  exists text,
    compressMillisBitPacked ts = Js.Return text /\
    decodeBitPacked text = Ok ts.
Proof.
  intros Hts.
  assert (HM : 0 < MS_PER_DAY) by (unfold MS_PER_DAY; lia).
  destruct (Z_lt_le_dec 65535 (ts / MS_PER_DAY)) as [Hbig | Hsmall].
  - exists ("F_" ++ compressMillisBase62 ts)%string. split.
    + apply bitPacked_fallback. lia.
    + unfold decodeBitPacked. rewrite stripMarker_fallback.
      now apply base62_decode_encode.
  - exists (packedForm (ts / MS_PER_DAY) (ts mod MS_PER_DAY)). split.
    + now apply bitPacked_packed.
    + pose proof (Z.mod_pos_bound ts MS_PER_DAY HM) as Hmb.
      rewrite packed_roundtrip.
      * f_equal. rewrite Z.mod_eq by lia. lia.
      * split; [apply Z.div_pos; lia | assumption].
      * unfold MS_PER_DAY in *. lia.
Qed.

Lemma isSign_alphabet c : indexOf chars62 c <> None -> isSign c = false.
Proof.
  intros Hc. unfold isSign.
  destruct (Ascii.eqb c "+") eqn:Ep.
  { apply Ascii.eqb_eq in Ep. subst c. now contradiction Hc. }
  destruct (Ascii.eqb c "-") eqn:Em; [|reflexivity].
  apply Ascii.eqb_eq in Em. subst c. now contradiction Hc.
Qed.

(** A run of Base62 digits is read as one piece, up to the next sign. *)
Lemma signedRuns_digits (s r : string) :
  allIn chars62 s = true ->
  signedRuns (s ++ r) =
  ((s ++ fst (signedRuns r))%string, snd (signedRuns r)).
Proof.
  induction s as [|a s IH]; intros Hall.
  - simpl. now destruct (signedRuns r).
  - cbn [allIn] in Hall.
    destruct (indexOf chars62 a) eqn:Ha; [|discriminate].
    cbn [append signedRuns]. rewrite (IH Hall).
    rewrite isSign_alphabet by (rewrite Ha; discriminate).
    reflexivity.
Qed.

Lemma signedRuns_entries (rest : list Z) :
  forall prev,
    signedRuns (deltaEntries prev rest) = (EmptyString, deltaRuns prev rest).
Proof.
  induction rest as [|t rest IH]; intros prev; [reflexivity|].
  cbn [deltaEntries deltaRuns]. unfold deltaEntry.
  cbn [append signedRuns].
  rewrite signedRuns_digits by (apply base62_allIn; lia).
  rewrite IH. cbn [fst snd]. rewrite string_app_nil_r.
  now destruct (t - prev >=? 0).
Qed.

Lemma applyDeltas_runs (rest : list Z) :
  forall prev, applyDeltas prev (deltaRuns prev rest) = Ok rest.
Proof.
  induction rest as [|t rest IH]; intros prev; [reflexivity|].
  cbn [deltaRuns applyDeltas].
  unfold compressMillisBase62 at 1.
  rewrite (encodeDigits_nonempty chars62 _ chars62_base).
  rewrite base62_decode_encode by lia.
  assert (Hnext : (if Ascii.eqb (if t - prev >=? 0 then "+" else "-") "+"
                   then prev + Z.abs (t - prev)
                   else prev - Z.abs (t - prev)) = t).
  { destruct (t - prev >=? 0) eqn:E; cbn [Ascii.eqb Bool.eqb];
      rewrite Z.geb_leb in E;
      [apply Z.leb_le in E | apply Z.leb_gt in E]; lia. }
  rewrite Hnext, IH. reflexivity.
Qed.

Lemma series_roundtrip first rest :
  0 <= first ->
  decodeTimestampSeries (compressTimestampSeries (first :: rest)) =
  Ok (first :: rest).
Proof.
  intros Hfirst. rewrite compressTimestampSeries_entries.
  unfold decodeTimestampSeries.
  assert (Hne : String.eqb (compressMillisBase62 first) EmptyString = false)
    by apply (encodeDigits_nonempty chars62 _ chars62_base).
  assert (Happ : forall s t, String.eqb s EmptyString = false ->
                             String.eqb (s ++ t) EmptyString = false).
  { intros [|a s] t Hs; [discriminate Hs | reflexivity]. }
  rewrite (Happ _ _ Hne).
  rewrite signedRuns_digits by now apply base62_allIn.
  rewrite signedRuns_entries. cbn [fst snd]. rewrite string_app_nil_r.
  rewrite Hne, base62_decode_encode by assumption.
  now rewrite applyDeltas_runs.
Qed.

(* ================================================================== *)
(** * The length and the shape of a positional encoding *)
(* ================================================================== *)

Lemma concat_left_length c :
  String.length (Js.concat_left (Some c) EmptyString) = 1%nat.
Proof. reflexivity. Qed.

Lemma indexOf_get_back (s : string) :
  forall c d, indexOf s c = Some d -> String.get (Z.to_nat d) s = Some c.
Proof.
  induction s as [|a s IH]; intros c d H; simpl in H; [discriminate|].
  destruct (Ascii.eqb a c) eqn:E.
  - injection H as <-. apply Ascii.eqb_eq in E. now subst.
  - destruct (indexOf s c) as [d'|] eqn:E'; [|discriminate].
    injection H as <-. pose proof (indexOf_range _ _ _ E').
    rewrite Z2Nat.inj_succ by lia. simpl. now apply IH.
Qed.

Lemma indexOf_injective (s : string) c1 c2 d :
  indexOf s c1 = Some d -> indexOf s c2 = Some d -> c1 = c2.
Proof.
  intros H1 H2. apply indexOf_get_back in H1. apply indexOf_get_back in H2.
  congruence.
Qed.

Section DigitCount.

Variable chars : string.
Local Notation "'base'" := (Z.of_nat (String.length chars)).
Hypothesis base_ge_2 : 2 <= base.

Lemma index_in_range d :
  0 <= d < base -> exists c, Js.index chars d = Some c.
Proof.
  intros Hd. unfold Js.index.
  destruct (d <? 0) eqn:E; [apply Z.ltb_lt in E; lia|].
  apply get_in_range. lia.
Qed.

Lemma last_digit_exists number :
  0 <= number -> exists c, Js.index chars (Z.rem number base) = Some c.
Proof.
  intros Hn. rewrite Z.rem_mod_nonneg by lia.
  apply index_in_range. apply Z.mod_pos_bound. lia.
Qed.

Lemma encode_length_small number :
  0 <= number -> number / base <= 0 ->
  String.length (encodeDigits chars number) = 1%nat.
Proof.
  intros Hn Hq. destruct (last_digit_exists number Hn) as [c Hc].
  now rewrite (encodeDigits_small chars base_ge_2 number Hq), Hc.
Qed.

Lemma encode_length_step number :
  0 <= number -> 0 < number / base ->
  String.length (encodeDigits chars number) =
  S (String.length (encodeDigits chars (number / base))).
Proof.
  intros Hn Hq. destruct (last_digit_exists number Hn) as [c Hc].
  rewrite (encodeDigits_step chars base_ge_2 number Hq), Hc.
  rewrite string_length_app, concat_left_length. lia.
Qed.

Lemma quotient_below number : 0 <= number -> 0 < number / base ->
  0 < number / base < number.
Proof.
  intros Hn Hq.
  assert (number <> 0) by (intros ->; rewrite Zdiv_0_l in Hq; lia).
  split; [assumption|]. apply Z.div_lt; lia.
Qed.

Lemma small_iff_below_base number :
  0 <= number -> (number / base <= 0 <-> number < base).
Proof.
  intros Hn. split; intros H.
  - destruct (Z_lt_le_dec number base) as [|Hge]; [assumption|].
    assert (1 <= number / base); [|lia].
    apply Z.div_le_lower_bound; lia.
  - rewrite Z.div_small; lia.
Qed.

(** The number of characters is the number of digits of the value. *)
Lemma encode_digit_count number :
  0 < number ->
  base ^ (Z.of_nat (String.length (encodeDigits chars number)) - 1) <= number
  < base ^ Z.of_nat (String.length (encodeDigits chars number)).
Proof.
  intros Hpos. assert (Hn : 0 <= number) by lia.
  generalize Hpos. pattern number.
  apply Z_lt_induction; [|assumption].
  clear number Hpos Hn. intros n IH Hpos.
  destruct (Z_lt_le_dec 0 (n / base)) as [Hq | Hq].
  - rewrite encode_length_step by lia.
    destruct (quotient_below n ltac:(lia) Hq) as [Hq0 Hqn].
    specialize (IH (n / base) ltac:(lia) Hq0).
    set (l := String.length (encodeDigits chars (n / base))) in *.
    assert (Hl : (1 <= l)%nat).
    { destruct l; [|lia]. simpl in IH. lia. }
    replace (Z.of_nat (S l) - 1) with (Z.succ (Z.of_nat l - 1)) by lia.
    replace (Z.of_nat (S l)) with (Z.succ (Z.of_nat l)) by lia.
    rewrite !Z.pow_succ_r by lia.
    pose proof (Z.div_mod n base ltac:(lia)) as Hdm.
    pose proof (Z.mod_pos_bound n base ltac:(lia)) as Hmb.
    set (q := n / base) in *. set (r := n mod base) in *.
    set (p1 := base ^ (Z.of_nat l - 1)) in *.
    set (p2 := base ^ Z.of_nat l) in *.
    split; nia.
  - rewrite encode_length_small by lia.
    apply small_iff_below_base in Hq; [|lia].
    change (Z.of_nat 1 - 1) with 0. rewrite Z.pow_0_r, Z.pow_1_r. lia.
Qed.

Lemma encode_length_positive number :
  0 <= number -> (1 <= String.length (encodeDigits chars number))%nat.
Proof.
  intros Hn. destruct (Z_lt_le_dec 0 (number / base)) as [Hq | Hq].
  - rewrite encode_length_step by lia. lia.
  - rewrite encode_length_small by lia. lia.
Qed.

Lemma encode_length_zero :
  String.length (encodeDigits chars 0) = 1%nat.
Proof. apply encode_length_small; [lia|]. rewrite Zdiv_0_l. lia. Qed.

(** A value below [base ^ k] is written with at most [k] characters. *)
Lemma encode_length_below number (k : nat) :
  0 <= number -> (1 <= k)%nat -> number < base ^ Z.of_nat k ->
  (String.length (encodeDigits chars number) <= k)%nat.
Proof.
  intros Hn Hk Hlt.
  destruct (Z.eq_dec number 0) as [-> | Hnz].
  { rewrite encode_length_zero. assumption. }
  destruct (encode_digit_count number ltac:(lia)) as [Hlow _].
  set (l := String.length (encodeDigits chars number)) in *.
  destruct (le_lt_dec l k) as [|Hgt]; [assumption|exfalso].
  assert (base ^ Z.of_nat k <= base ^ (Z.of_nat l - 1))
    by (apply Z.pow_le_mono_r; lia).
  lia.
Qed.

(** A value of at least [base ^ k] is written with more than [k]
    characters. *)
Lemma encode_length_above number (k : nat) :
  base ^ Z.of_nat k <= number ->
  (k < String.length (encodeDigits chars number))%nat.
Proof.
  intros Hge.
  assert (Hp : 0 < base ^ Z.of_nat k) by (apply Z.pow_pos_nonneg; lia).
  destruct (encode_digit_count number ltac:(lia)) as [_ Hup].
  set (l := String.length (encodeDigits chars number)) in *.
  destruct (le_lt_dec l k) as [Hle|]; [exfalso|assumption].
  assert (base ^ Z.of_nat l <= base ^ Z.of_nat k)
    by (apply Z.pow_le_mono_r; lia).
  lia.
Qed.

Lemma encode_length_monotone a b :
  0 <= a <= b ->
  (String.length (encodeDigits chars a) <=
   String.length (encodeDigits chars b))%nat.
Proof.
  intros Hab.
  destruct (Z.eq_dec a 0) as [-> | Hnz].
  { rewrite encode_length_zero. apply encode_length_positive. lia. }
  destruct (encode_digit_count b ltac:(lia)) as [_ Hup].
  apply encode_length_below; [lia | apply encode_length_positive; lia | lia].
Qed.

End DigitCount.

Lemma directText_loop codec millis :
  directText codec millis = encodeDigits (directChars codec) millis.
Proof. destruct codec; reflexivity. Qed.

Lemma directChars_distinct codec : distinct (directChars codec) = true.
Proof. destruct codec; reflexivity. Qed.

Section LeadingDigit.

Variable chars : string.
Local Notation "'base'" := (Z.of_nat (String.length chars)).
Hypothesis base_ge_2 : 2 <= base.
Hypothesis chars_distinct : distinct chars = true.


(** The lexicographic order by digit index is antisymmetric on texts over
    the alphabet. *)
Lemma lexLe_antisym (s : string) :
  forall t,
    allIn chars s = true -> allIn chars t = true ->
    String.length s = String.length t ->
    lexLe chars s t = true -> lexLe chars t s = true -> s = t.
Proof.
  induction s as [|a s IH]; intros [|b t] Hs Ht Hlen Hst Hts;
    simpl in *; try reflexivity; try discriminate.
  unfold digitValue in *.
  destruct (indexOf chars a) as [da|] eqn:Ha; [|discriminate].
  destruct (indexOf chars b) as [db|] eqn:Hb; [|discriminate].
  destruct (da ?= db) eqn:Hcmp.
  - apply Z.compare_eq in Hcmp. subst db.
    rewrite Z.compare_refl in Hts.
    rewrite (indexOf_injective chars a b da Ha Hb).
    f_equal. apply IH; try assumption. now injection Hlen.
  - rewrite Z.compare_antisym, Hcmp in Hts. discriminate.
  - discriminate.
Qed.

(** The numeric order of non-negative values is the order of their
    encodings by length first and by digit index among equal lengths. *)
Lemma encode_shortlex a b :
  0 <= a -> 0 <= b ->
  (a <= b <->
   (String.length (encodeDigits chars a) <
    String.length (encodeDigits chars b))%nat \/
   (String.length (encodeDigits chars a) =
    String.length (encodeDigits chars b) /\
    lexLe chars (encodeDigits chars a) (encodeDigits chars b) = true)).
Proof.
  intros Ha Hb. split.
  - intros Hab.
    pose proof (encode_length_monotone chars base_ge_2 a b ltac:(lia)) as Hm.
    destruct (Nat.eq_dec (String.length (encodeDigits chars a))
                         (String.length (encodeDigits chars b))) as [E|E].
    + right. split; [assumption|].
      apply (encode_monotone chars base_ge_2 chars_distinct); [lia|assumption].
    + left. lia.
  - intros [Hlt | [Hlen Hlex]].
    + destruct (Z_lt_le_dec b a) as [Hba|]; [|assumption].
      pose proof (encode_length_monotone chars base_ge_2 b a ltac:(lia)). lia.
    + destruct (Z_lt_le_dec b a) as [Hba|]; [|assumption].
      assert (Hrev : lexLe chars (encodeDigits chars b) (encodeDigits chars a)
                     = true)
        by (apply (encode_monotone chars base_ge_2 chars_distinct);
            [lia | now symmetry]).
      assert (E : encodeDigits chars a = encodeDigits chars b).
      { apply lexLe_antisym; try assumption;
          apply (encode_allIn chars base_ge_2 chars_distinct); lia. }
      apply (encode_injective chars base_ge_2 chars_distinct) in E; lia.
Qed.

End LeadingDigit.






(* ================================================================== *)
(** * More on the fixed-width codec *)
(* ================================================================== *)

(** X5: [compressMillisBitPacked] throws a [RangeError] exactly on the
    timestamps before the epoch; on every other timestamp it returns. *)
Theorem bitpacked_throws_iff_negative (ts : Z) :
  compressMillisBitPacked ts = Js.Throw Js.RangeError <-> ts < 0.
Proof.
  split.
  - intros Hthrow. destruct (Z_lt_le_dec ts 0) as [|Hpos]; [assumption|].
    destruct (bitPacked_roundtrip ts Hpos) as (text & Hret & _).
    rewrite Hret in Hthrow. discriminate.
  - apply bitPacked_negative.
Qed.

Lemma byte_range v : 0 <= v mod 256 < 256.
Proof. apply Z.mod_pos_bound. lia. Qed.

(** Three bytes are written as four characters of the base64 alphabet. *)
Lemma toBase64_triple a b c rest :
  0 <= a < 256 -> 0 <= b < 256 -> 0 <= c < 256 ->
  exists c0 c1 c2 c3,
    toBase64 (a :: b :: c :: rest) =
    String c0 (String c1 (String c2 (String c3 (toBase64 rest)))) /\
    allIn base64Chars (String c0 (String c1 (String c2 (String c3 EmptyString))))
    = true.
Proof.
  intros Ha Hb Hc. cbn [toBase64].
  set (n := a * 65536 + b * 256 + c).
  assert (Hn : 0 <= n < 16777216) by (unfold n; lia).
  assert (R0 : 0 <= n / 262144 < 64)
    by (split; [apply Z.div_pos | apply Z.div_lt_upper_bound]; lia).
  assert (R1 : 0 <= n / 4096 mod 64 < 64) by (apply Z.mod_pos_bound; lia).
  assert (R2 : 0 <= n / 64 mod 64 < 64) by (apply Z.mod_pos_bound; lia).
  assert (R3 : 0 <= n mod 64 < 64) by (apply Z.mod_pos_bound; lia).
  destruct (base64Digit_index _ R0) as [I0 _].
  destruct (base64Digit_index _ R1) as [I1 _].
  destruct (base64Digit_index _ R2) as [I2 _].
  destruct (base64Digit_index _ R3) as [I3 _].
  do 4 eexists. split; [reflexivity|].
  cbn [allIn]. now rewrite I0, I1, I2, I3.
Qed.

(** X6: from the epoch up to the end of day 65535 (before
    5662310400000, in the year 2149) the fixed-width codec returns exactly
    eight characters, all of the base64 alphabet: the six bytes need no
    padding. *)
Theorem bitpacked_packed_is_eight_characters (ts : Z) :
  0 <= ts < 5662310400000 ->
  exists text,
    compressMillisBitPacked ts = Js.Return text /\
    String.length text = 8%nat /\
    allIn base64Chars text = true.
Proof.
  intros Hts.
  assert (Hdays : ts / MS_PER_DAY <= 65535).
  { assert (ts / MS_PER_DAY < 65536); [|lia].
    apply Z.div_lt_upper_bound; unfold MS_PER_DAY; lia. }
  exists (packedForm (ts / MS_PER_DAY) (ts mod MS_PER_DAY)).
  split; [apply bitPacked_packed; [lia | assumption]|].
  unfold packedForm, bigEndian16, bigEndian32. cbn [app].
  destruct (toBase64_triple
              (ts / MS_PER_DAY / 256 mod 256) (ts / MS_PER_DAY mod 256)
              (ts mod MS_PER_DAY / 16777216 mod 256)
              [ts mod MS_PER_DAY / 65536 mod 256;
               ts mod MS_PER_DAY / 256 mod 256;
               ts mod MS_PER_DAY mod 256]
              (byte_range _) (byte_range _) (byte_range _))
    as (c0 & c1 & c2 & c3 & E1 & A1).
  destruct (toBase64_triple
              (ts mod MS_PER_DAY / 65536 mod 256)
              (ts mod MS_PER_DAY / 256 mod 256)
              (ts mod MS_PER_DAY mod 256) []
              (byte_range _) (byte_range _) (byte_range _))
    as (c4 & c5 & c6 & c7 & E2 & A2).
  rewrite E1, E2. cbn [toBase64]. split; [reflexivity|].
  cbn [allIn] in *.
  destruct (indexOf base64Chars c0); [|discriminate].
  destruct (indexOf base64Chars c1); [|discriminate].
  destruct (indexOf base64Chars c2); [|discriminate].
  destruct (indexOf base64Chars c3); [|discriminate].
  exact A2.
Qed.

Lemma bitpacked_packed_is_eight_characters_witness :
  exists text,
    compressMillisBitPacked 1700000000000 = Js.Return text /\
    String.length text = 8%nat /\
    allIn base64Chars text = true.
Proof.
  apply (bitpacked_packed_is_eight_characters 1700000000000). lia.
Defined.



(* ================================================================== *)
(** * More on the reference-relative codec *)
(* ================================================================== *)



(* ================================================================== *)
(** * More on the sequence codec *)
(* ================================================================== *)

Lemma last_cons (rest : list Z) :
  forall t prev, last (t :: rest) prev = last rest t.
Proof.
  induction rest as [|z rest IH]; intros t prev; [reflexivity|].
  change (last (t :: z :: rest) prev) with (last (z :: rest) prev).
  now rewrite !IH.
Qed.

Lemma seriesStep_state (rest : list Z) :
  forall result prev,
    fold_left seriesStep rest (result, prev) =
    ((result ++ deltaEntries prev rest)%string, last rest prev).
Proof.
  induction rest as [|t rest IH]; intros result prev.
  - simpl. now rewrite string_app_nil_r.
  - cbn [fold_left seriesStep]. rewrite IH.
    cbn [deltaEntries]. unfold deltaEntry, compressMillisBase62.
    rewrite string_app_assoc, last_cons. reflexivity.
Qed.

Lemma series_text_nonempty first rest :
  compressTimestampSeries (first :: rest) <> EmptyString.
Proof.
  rewrite compressTimestampSeries_entries. intros H.
  pose proof (encodeDigits_nonempty chars62 first chars62_base) as Hne.
  fold (compressMillisBase62 first) in Hne.
  destruct (compressMillisBase62 first); [discriminate Hne | discriminate H].
Qed.

(* ================================================================== *)
(** * The 64-bit base64 encoder *)
(* ================================================================== *)

Lemma land_32 v : Z.land v 4294967295 = v mod 4294967296.
Proof. change 4294967295 with (Z.ones 32). now rewrite Z.land_ones by lia. Qed.

Lemma shiftr_32 v : Z.shiftr v 32 = v / 4294967296.
Proof. now rewrite Z.shiftr_div_pow2 by lia. Qed.

Lemma writeBigInt64BE_alloc v :
  -9223372036854775808 <= v <= 9223372036854775807 ->
  writeBigInt64BE (Buffer_alloc 8) v 0 = Js.Return (bigEndian64 v).
Proof.
  intros Hv. unfold writeBigInt64BE.
  replace ((v <? -9223372036854775808) || (v >? 9223372036854775807))
    with false.
  - unfold Buffer_alloc. cbn [repeat setByte Nat.add].
    rewrite !land_255, !shiftr_8, shiftr_32, !land_32.
    rewrite !Z.div_div by lia. reflexivity.
  - symmetry. apply orb_false_iff.
    split; [apply Z.ltb_ge | rewrite Z.gtb_ltb; apply Z.ltb_ge]; lia.
Qed.

Lemma writeBigInt64BE_range v :
  ~ (-9223372036854775808 <= v <= 9223372036854775807) ->
  writeBigInt64BE (Buffer_alloc 8) v 0 = Js.Throw Js.RangeError.
Proof.
  intros Hv. unfold writeBigInt64BE.
  replace ((v <? -9223372036854775808) || (v >? 9223372036854775807))
    with true; [reflexivity|].
  symmetry. apply orb_true_iff.
  destruct (Z_lt_le_dec v (-9223372036854775808)) as [Hlow|Hlow].
  - left. now apply Z.ltb_lt.
  - right. rewrite Z.gtb_ltb. apply Z.ltb_lt. lia.
Qed.

(** Two bytes are written as three digits and one padding character, and
    are read back. *)
Lemma fromBase64_pair a b :
  0 <= a < 256 -> 0 <= b < 256 ->
  exists c0 c1 c2,
    toBase64 [a; b] = String c0 (String c1 (String c2 "=")) /\
    c2 <> "="%char /\
    fromBase64 (toBase64 [a; b]) = Ok [a; b].
Proof.
  intros Ha Hb. cbn [toBase64].
  set (n := a * 65536 + b * 256).
  assert (Hn : 0 <= n < 16777216) by (unfold n; lia).
  assert (R0 : 0 <= n / 262144 < 64)
    by (split; [apply Z.div_pos | apply Z.div_lt_upper_bound]; lia).
  assert (R1 : 0 <= n / 4096 mod 64 < 64) by (apply Z.mod_pos_bound; lia).
  assert (R2 : 0 <= n / 64 mod 64 < 64) by (apply Z.mod_pos_bound; lia).
  destruct (base64Digit_index _ R0) as [I0 _].
  destruct (base64Digit_index _ R1) as [I1 _].
  destruct (base64Digit_index _ R2) as [I2 E2].
  do 3 eexists. split; [reflexivity|]. split.
  - intros H. rewrite H in E2. discriminate E2.
  - cbn [fromBase64]. rewrite I0, I1, I2, E2.
    cbn [Ascii.eqb Bool.eqb andb String.eqb].
    assert (Hm : ((n / 262144 * 64 + n / 4096 mod 64) * 64 + n / 64 mod 64)
                 * 64 = n)
      by (unfold n; Z.div_mod_to_equations; lia).
    rewrite Hm.
    assert (Ba : n / 65536 = a) by (unfold n; Z.div_mod_to_equations; lia).
    assert (Bb : n / 256 mod 256 = b)
      by (unfold n; Z.div_mod_to_equations; lia).
    now rewrite Ba, Bb.
Qed.

Lemma int64OfBytes_bigEndian64 v :
  -9223372036854775808 <= v <= 9223372036854775807 ->
  int64OfBytes (bigEndian64 v) = v.
Proof.
  intros Hv. unfold int64OfBytes, bigEndian64, bigEndian32.
  cbn [app fold_left].
  set (hi := v / 4294967296 mod 4294967296).
  set (lo := v mod 4294967296).
  assert (Hhi : 0 <= hi < 4294967296) by (apply Z.mod_pos_bound; lia).
  assert (Hlo : 0 <= lo < 4294967296) by (apply Z.mod_pos_bound; lia).
  assert (Hu : (((((((0 * 256 + hi / 16777216 mod 256) * 256
                     + hi / 65536 mod 256) * 256 + hi / 256 mod 256) * 256
                   + hi mod 256) * 256 + lo / 16777216 mod 256) * 256
                 + lo / 65536 mod 256) * 256 + lo / 256 mod 256) * 256
               + lo mod 256 = hi * 4294967296 + lo).
  { clear - Hhi Hlo. Z.div_mod_to_equations. lia. }
  rewrite Hu.
  assert (Hv64 : hi * 4294967296 + lo = v mod 18446744073709551616).
  { unfold hi, lo. clear. Z.div_mod_to_equations. lia. }
  rewrite Hv64.
  destruct (v mod 18446744073709551616 <? 9223372036854775808) eqn:E.
  - apply Z.ltb_lt in E. revert E. Z.div_mod_to_equations. lia.
  - apply Z.ltb_ge in E. revert E. Z.div_mod_to_equations. lia.
Qed.

(** The text of a 64-bit value, its length, its padding, and the way back. *)
Lemma base64_roundtrip ts :
  -9223372036854775808 <= ts <= 9223372036854775807 ->
  exists text,
    compressMillisBase64 ts = Js.Return text /\
    String.length text = 12%nat /\
    String.get 10 text <> Some "="%char /\
    String.get 11 text = Some "="%char /\
    fromBase64 text = Ok (bigEndian64 ts).
Proof.
  intros Hts. unfold compressMillisBase64.
  rewrite (writeBigInt64BE_alloc ts Hts). cbn [Js.bind].
  exists (toBase64 (bigEndian64 ts)). split; [reflexivity|].
  unfold bigEndian64, bigEndian32. cbn [app].
  set (hi := ts / 4294967296 mod 4294967296).
  set (lo := ts mod 4294967296).
  rewrite !fromBase64_group by apply byte_range.
  destruct (toBase64_triple
              (hi / 16777216 mod 256) (hi / 65536 mod 256) (hi / 256 mod 256)
              [hi mod 256; lo / 16777216 mod 256; lo / 65536 mod 256;
               lo / 256 mod 256; lo mod 256]
              (byte_range _) (byte_range _) (byte_range _))
    as (c0 & c1 & c2 & c3 & E1 & _).
  destruct (toBase64_triple
              (hi mod 256) (lo / 16777216 mod 256) (lo / 65536 mod 256)
              [lo / 256 mod 256; lo mod 256]
              (byte_range _) (byte_range _) (byte_range _))
    as (c4 & c5 & c6 & c7 & E2 & _).
  destruct (fromBase64_pair (lo / 256 mod 256) (lo mod 256)
              (byte_range _) (byte_range _))
    as (c8 & c9 & c10 & E3 & Hpad & D3).
  rewrite D3, E1, E2, E3. cbn [String.length String.get].
  repeat split; try reflexivity.
  intros H. injection H as H. contradiction.
Qed.

(** X16: [compressMillisBase64] is injective on the signed 64-bit integers,
    the negative ones included: the eight bytes hold the two's complement. *)
Theorem base64_injective (a b : Z) :
  -9223372036854775808 <= a <= 9223372036854775807 ->
  -9223372036854775808 <= b <= 9223372036854775807 ->
  a <> b ->
  compressMillisBase64 a <> compressMillisBase64 b.
Proof.
  intros Ha Hb Hneq Heq. apply Hneq.
  destruct (base64_roundtrip a Ha) as (ta & Ra & _ & _ & _ & Da).
  destruct (base64_roundtrip b Hb) as (tb & Rb & _ & _ & _ & Db).
  rewrite Ra, Rb in Heq. injection Heq as ->.
  assert (Hbytes : bigEndian64 a = bigEndian64 b) by congruence.
  rewrite <- (int64OfBytes_bigEndian64 a Ha), <- (int64OfBytes_bigEndian64 b Hb).
  now rewrite Hbytes.
Qed.

Lemma base64_injective_witness :
  compressMillisBase64 (-62) <> compressMillisBase64 0.
Proof.
  apply (base64_injective (-62) 0); lia.
Defined.

(* ================================================================== *)
(** * The timestamps of the benchmark *)
(* ================================================================== *)

Lemma fold_push {A B} (f : B -> A) (l : list B) :
  forall init : list A,
    fold_left (fun acc i => (acc ++ [f i])%list) l init =
    (init ++ map f l)%list.
Proof.
  induction l as [|x l IH]; intros init; simpl.
  - now rewrite app_nil_r.
  - rewrite IH, <- app_assoc. reflexivity.
Qed.

Lemma generateTestTimestamps_list now0 now :
  generateTestTimestamps now0 now =
  ([now0; now - 86400000; now - 604800000; 1577836800000; 946684800000;
    315532800000; 100000; now + 31536000000; 8640000000000000] ++
   map (fun i => 1672531200000 + 4320000 * Z.of_nat i) (seq 0 1200))%list.
Proof.
  unfold generateTestTimestamps. rewrite fold_push. cbn [app].
  change (60 * 20)%nat with 1200%nat.
  rewrite (map_ext
             (fun i => 1672531200000 +
                       Z.of_nat i * (60 * 24 * 60 * 60 * 1000) / (60 * 20))
             (fun i => 1672531200000 + 4320000 * Z.of_nat i)).
  - reflexivity.
  - intros i.
    change (60 * 24 * 60 * 60 * 1000) with 5184000000.
    change (60 * 20) with 1200.
    f_equal. Z.div_mod_to_equations. lia.
Qed.

(** X17: [generateTestTimestamps] returns 1209 timestamps: nine fixed or
    clock-relative ones and 1200 that step by 4320000 ms (72 minutes) from
    2023-01-01.  When the clock reads at least seven days past the epoch all
    of them are non-negative, so [compressMillisBitPacked], which throws
    before the epoch, returns on every one of them. *)
Theorem benchmark_timestamps (now0 now : Z) :
  0 <= now0 -> 604800000 <= now ->
  List.length (generateTestTimestamps now0 now) = 1209%nat /\
  (forall i, (i < 1200)%nat ->
     nth (9 + i) (generateTestTimestamps now0 now) 0 =
     1672531200000 + 4320000 * Z.of_nat i) /\
  Forall (fun t => 0 <= t /\
                   exists text, compressMillisBitPacked t = Js.Return text)
         (generateTestTimestamps now0 now).
Proof.
  intros Hnow0 Hnow. rewrite generateTestTimestamps_list.
  split; [|split].
  - rewrite length_app, length_map, length_seq. reflexivity.
  - intros i Hi. rewrite app_nth2 by (simpl; lia).
    cbn [List.length]. replace (9 + i - 9)%nat with i by lia.
    set (f := fun i => 1672531200000 + 4320000 * Z.of_nat i).
    rewrite (nth_indep _ 0 (f 0%nat))
      by (rewrite length_map, length_seq; lia).
    rewrite map_nth, seq_nth by lia. reflexivity.
  - assert (Hall : Forall (fun t => 0 <= t)
             ([now0; now - 86400000; now - 604800000; 1577836800000;
               946684800000; 315532800000; 100000; now + 31536000000;
               8640000000000000] ++
              map (fun i => 1672531200000 + 4320000 * Z.of_nat i)
                  (seq 0 1200))%list).
    { apply Forall_app. split.
      - repeat constructor; lia.
      - apply Forall_forall. intros x Hin.
        apply in_map_iff in Hin as (i & <- & _). lia. }
    eapply Forall_impl; [|exact Hall].
    intros t Ht. split; [assumption|].
    destruct (bitPacked_roundtrip t Ht) as (text & Hret & _).
    now exists text.
Qed.

Lemma benchmark_timestamps_witness :
  List.length (generateTestTimestamps 1700000000000 1700000000001) = 1209%nat.
Proof.
  apply (benchmark_timestamps 1700000000000 1700000000001); lia.
Defined.

(* ================================================================== *)
(** * The size of a delta-encoded series *)
(* ================================================================== *)

Lemma deltaEntry_length delta (k : nat) :
  (1 <= k)%nat -> Z.abs delta < 62 ^ Z.of_nat k ->
  (String.length (deltaEntry delta) <= k + 1)%nat.
Proof.
  intros Hk Hd. unfold deltaEntry. cbn [String.length].
  pose proof (encode_length_below chars62 chars62_base (Z.abs delta) k
                ltac:(lia) Hk Hd).
  unfold compressMillisBase62. lia.
Qed.

Lemma deltaEntries_length (k : nat) (rest : list Z) :
  (1 <= k)%nat ->
  forall prev,
    stepsBelow (62 ^ Z.of_nat k) prev rest ->
    (String.length (deltaEntries prev rest) <= (k + 1) * List.length rest)%nat.
Proof.
  intros Hk. induction rest as [|t rest IH]; intros prev Hsteps.
  - simpl. lia.
  - destruct Hsteps as [Hd Hrest].
    cbn [deltaEntries List.length]. rewrite string_length_app.
    pose proof (deltaEntry_length (t - prev) k Hk Hd).
    pose proof (IH t Hrest). lia.
Qed.

(* ================================================================== *)
(** * The integer embedding is the source on safe integers *)
(* ================================================================== *)

Lemma roundHalfEven_bounds num den :
  0 < den ->
  2 * num - den <= 2 * (den * Binary64.roundHalfEven num den) <= 2 * num + den.
Proof.
  intros Hden. unfold Binary64.roundHalfEven.
  pose proof (Z.div_mod num den ltac:(lia)) as Hdm.
  pose proof (Z.mod_pos_bound num den Hden) as Hr.
  set (q := num / den) in *. set (r := num mod den) in *.
  destruct (2 * r <? den) eqn:E1.
  - apply Z.ltb_lt in E1. nia.
  - apply Z.ltb_ge in E1. destruct (den <? 2 * r) eqn:E2.
    + apply Z.ltb_lt in E2. nia.
    + apply Z.ltb_ge in E2. destruct (Z.even q); nia.
Qed.

Lemma toDouble_safe x : Z.abs x <= 2 ^ 53 -> Binary64.toDouble x = x.
Proof.
  intros Hx. unfold Binary64.toDouble.
  destruct (Z.abs x <=? 2 ^ 53) eqn:E; [reflexivity|].
  apply Z.leb_gt in E. lia.
Qed.

Lemma sub_safe a b : safeInteger (a - b) -> Binary64.sub a b = a - b.
Proof.
  unfold safeInteger, MAX_SAFE_INTEGER. intros H.
  apply toDouble_safe. change (2 ^ 53) with 9007199254740992. lia.
Qed.

Lemma add_safe a b : safeInteger (a + b) -> Binary64.add a b = a + b.
Proof.
  unfold safeInteger, MAX_SAFE_INTEGER. intros H.
  apply toDouble_safe. change (2 ^ 53) with 9007199254740992. lia.
Qed.

(** Below 2^53 the rounded quotient has the floor of the exact one. *)
Lemma floorDiv_safe number base :
  0 <= number <= MAX_SAFE_INTEGER -> 2 <= base ->
  Binary64.floorDiv number base = number / base.
Proof.
  unfold MAX_SAFE_INTEGER. intros Hn Hb. unfold Binary64.floorDiv.
  rewrite Z.abs_eq by lia.
  destruct (number <? base) eqn:Esmall.
  { apply Z.ltb_lt in Esmall.
    destruct (number <? 0) eqn:Eneg; [apply Z.ltb_lt in Eneg; lia|].
    now rewrite Z.div_small by lia. }
  apply Z.ltb_ge in Esmall.
  pose proof (Z.div_mod number base ltac:(lia)) as Hdm.
  pose proof (Z.mod_pos_bound number base ltac:(lia)) as Hr.
  set (q := number / base) in *. set (r := number mod base) in *.
  assert (Hq1 : 1 <= q) by (apply Z.div_le_lower_bound; lia).
  assert (Hq52 : q < 2 ^ 52).
  { change (2 ^ 52) with 4503599627370496.
    apply Z.div_lt_upper_bound; lia. }
  destruct (Z.log2_spec q ltac:(lia)) as [Hlow Hup].
  assert (Hl0 : 0 <= Z.log2 q) by apply Z.log2_nonneg.
  assert (Hl : Z.log2 q < 52) by (apply Z.log2_lt_pow2; lia).
  destruct (0 <=? Z.log2 q - 52) eqn:Ee; [apply Z.leb_le in Ee; lia|].
  destruct (number <? 0) eqn:Eneg; [apply Z.ltb_lt in Eneg; lia|].
  replace (- (Z.log2 q - 52)) with (52 - Z.log2 q) by lia.
  set (k := 2 ^ (52 - Z.log2 q)).
  assert (Hk : 0 < k) by (apply Z.pow_pos_nonneg; lia).
  assert (Hkl : k * 2 ^ Z.log2 q = 2 ^ 52).
  { unfold k. rewrite <- Z.pow_add_r by lia. f_equal. lia. }
  change (2 ^ 52) with 4503599627370496 in Hkl.
  pose proof (roundHalfEven_bounds (number * k) base ltac:(lia)) as [Hm1 Hm2].
  set (m := Binary64.roundHalfEven (number * k) base) in *.
  assert (Hkq : 4503599627370496 <= k * q) by nia.
  assert (Hb2k : base < 2 * k) by nia.
  symmetry. apply (Z.div_unique m k q (m - q * k)); [|lia].
  left. split; nia.
Qed.

Section SafeLoop.

Variable chars : string.
Local Notation "'base'" := (Z.of_nat (String.length chars)).
Hypothesis base_ge_2 : 2 <= base.

Lemma quotient_safe number :
  0 <= number <= MAX_SAFE_INTEGER -> 0 <= number / base <= MAX_SAFE_INTEGER.
Proof.
  intros Hn. split; [apply Z.div_pos; lia|].
  assert (number / base <= number); [|lia].
  apply Z.div_le_upper_bound; nia.
Qed.

(** On a safe non-negative integer the loop of the source, quotient rounded
    and all, is the loop on the integers, and it ends within the fuel. *)
Lemma digitLoop_safe fuel :
  forall result number,
    0 <= number <= MAX_SAFE_INTEGER ->
    (loopFuel number <= fuel)%nat ->
    Binary64.digitLoop fuel chars result number =
    Some (digitLoop fuel chars result number).
Proof.
  induction fuel as [|fuel IH]; intros result number Hn Hfuel;
    cbn [Binary64.digitLoop digitLoop];
    rewrite (floorDiv_safe number base Hn base_ge_2).
  - destruct (number / base >? 0) eqn:Hq; [|reflexivity].
    apply Z.gtb_lt in Hq. unfold loopFuel in Hfuel.
    pose proof (quotient_small chars base_ge_2 number) as Hs.
    pose proof (Z.log2_nonneg number). lia.
  - destruct (number / base >? 0) eqn:Hq; [|reflexivity].
    apply Z.gtb_lt in Hq. apply IH.
    + now apply quotient_safe.
    + unfold loopFuel in *.
      pose proof (log2_quotient chars base_ge_2 number Hq).
      pose proof (Z.log2_nonneg (number / base)). lia.
Qed.

Lemma encodeDigits_safe number :
  0 <= number <= MAX_SAFE_INTEGER ->
  Binary64.encodeDigits chars number = Some (encodeDigits chars number).
Proof. intros Hn. apply digitLoop_safe; [assumption | lia]. Qed.

(** The loop writes what section 4.1 of the specification describes. *)
Lemma specDivide_loop fuel :
  forall text value,
    0 <= value ->
    specDivide fuel chars value text = digitLoop fuel chars text value.
Proof.
  induction fuel as [|fuel IH]; intros text value Hv;
    cbn [specDivide digitLoop].
  - destruct (last_digit_exists chars base_ge_2 value Hv) as [c Hc].
    rewrite Hc. cbn [Js.concat_left]. f_equal.
    unfold alphabetChar. unfold Js.index in Hc.
    rewrite Z.rem_mod_nonneg in Hc by lia.
    destruct (value mod base <? 0); [discriminate|]. now rewrite Hc.
  - destruct (last_digit_exists chars base_ge_2 value Hv) as [c Hc].
    rewrite Hc. cbn [Js.concat_left].
    assert (Hchar : alphabetChar chars (value mod base) = c).
    { unfold alphabetChar. unfold Js.index in Hc.
      rewrite Z.rem_mod_nonneg in Hc by lia.
      destruct (value mod base <? 0); [discriminate|]. now rewrite Hc. }
    rewrite Hchar.
    assert (Hq : 0 <= value / base) by (apply Z.div_pos; lia).
    destruct (value / base =? 0) eqn:E0.
    + apply Z.eqb_eq in E0. rewrite E0. reflexivity.
    + apply Z.eqb_neq in E0.
      replace (value / base >? 0) with true
        by (symmetry; apply Z.gtb_lt; lia).
      now apply IH.
Qed.

Lemma specEncode_loop value :
  0 <= value -> specEncode chars value = encodeDigits chars value.
Proof. intros Hv. now apply specDivide_loop. Qed.

End SafeLoop.

Lemma base62_safe v :
  0 <= v <= MAX_SAFE_INTEGER ->
  Binary64.compressMillisBase62 v = Some (specEncode chars62 v).
Proof.
  intros Hv. unfold Binary64.compressMillisBase62.
  rewrite (encodeDigits_safe chars62 chars62_base v Hv).
  now rewrite (specEncode_loop chars62 chars62_base v) by lia.
Qed.

Lemma base62_spec v : 0 <= v -> compressMillisBase62 v = specEncode chars62 v.
Proof.
  intros Hv. symmetry. now apply (specEncode_loop chars62 chars62_base).
Qed.

Lemma variable_safe ts referenceDate :
  safeInteger
    (ts - match referenceDate with
          | Some r => r
          | None => defaultReferenceDate
          end) ->
  Binary64.compressMillisVariable ts referenceDate =
  Some (compressMillisVariable ts referenceDate).
Proof.
  intros Hsafe.
  unfold Binary64.compressMillisVariable, compressMillisVariable.
  set (r := match referenceDate with Some r => r | None => _ end) in *.
  rewrite (sub_safe ts r Hsafe).
  rewrite (encodeDigits_safe chars62 chars62_base (Z.abs (ts - r)))
    by (unfold safeInteger in Hsafe; lia).
  reflexivity.
Qed.

Lemma seriesStep_safe (rest : list Z) :
  forall result prev,
    safeSteps prev rest ->
    fold_left Binary64.seriesStep rest (Some (result, prev)) =
    Some (fold_left seriesStep rest (result, prev)).
Proof.
  induction rest as [|t rest IH]; intros result prev Hsteps; [reflexivity|].
  destruct Hsteps as [Hsafe Hrest].
  cbn [fold_left Binary64.seriesStep seriesStep].
  rewrite (sub_safe t prev Hsafe).
  rewrite (encodeDigits_safe chars62 chars62_base (Z.abs (t - prev)))
    by (unfold safeInteger in Hsafe; lia).
  now apply IH.
Qed.

Lemma series_safe first rest :
  0 <= first <= MAX_SAFE_INTEGER -> safeSteps first rest ->
  Binary64.compressTimestampSeries (first :: rest) =
  Some (compressTimestampSeries (first :: rest)).
Proof.
  intros Hfirst Hsteps.
  unfold Binary64.compressTimestampSeries, Binary64.compressMillisBase62.
  rewrite (encodeDigits_safe chars62 chars62_base first Hfirst).
  rewrite (seriesStep_safe rest _ first Hsteps). reflexivity.
Qed.

Lemma deltaEntry_spec delta : deltaEntry delta = specEntry delta.
Proof.
  unfold deltaEntry, specEntry. now rewrite base62_spec by lia.
Qed.

Lemma series_spec first rest :
  0 <= first ->
  compressTimestampSeries (first :: rest) = specSeries (first :: rest).
Proof.
  intros Hfirst. rewrite compressTimestampSeries_entries.
  unfold specSeries. cbn [nth List.length].
  rewrite Nat.sub_succ, Nat.sub_0_r, base62_spec by assumption.
  f_equal. rewrite deltaEntries_indexed. unfold concatAll. f_equal.
  apply map_ext. intros i. apply deltaEntry_spec.
Qed.

(* ================================================================== *)
(** * Claims that hold on safe integers and fail where binary64 rounds *)
(* ================================================================== *)

(** C8, as the code has it: for non-negative safe integers [a <= b] (at most
    2^53 - 1) whose Base62 encodings have the same length, the encoding of
    [a] is lexicographically less than or equal to the encoding of [b],
    characters being compared by their index in the alphabet. *)
Theorem base62_monotone_fixed_width (a b : Z) :
  0 <= a -> a <= b -> b <= MAX_SAFE_INTEGER ->
  exists ta tb,
    Binary64.compressMillisBase62 a = Some ta /\
    Binary64.compressMillisBase62 b = Some tb /\
    (String.length ta = String.length tb -> lexLe chars62 ta tb = true).
Proof.
  intros Ha Hab Hb.
  exists (compressMillisBase62 a), (compressMillisBase62 b).
  split; [|split].
  - apply (encodeDigits_safe chars62 chars62_base). lia.
  - apply (encodeDigits_safe chars62 chars62_base). lia.
  - intros Hlen.
    apply (encode_monotone chars62 chars62_base chars62_distinct); [lia|].
    exact Hlen.
Qed.

Lemma base62_monotone_fixed_width_witness :
  exists ta tb,
    Binary64.compressMillisBase62 1700000000000 = Some ta /\
    Binary64.compressMillisBase62 1700000005000 = Some tb /\
    (String.length ta = String.length tb -> lexLe chars62 ta tb = true).
Proof.
  apply (base62_monotone_fixed_width 1700000000000 1700000005000).
  - lia.
  - lia.
  - unfold MAX_SAFE_INTEGER. lia.
Defined.

(** C8 as stated fails above 2^53, where the quotients of the loop are
    rounded: 34902897112121404 and 34902897112121408 are both numbers, the
    first is the smaller, their encodings have the same length, and the
    encoding of the first sorts after the encoding of the second. *)
Lemma base62_order_breaks_above_safe :
  Binary64.compressMillisBase62 34902897112121404 = Some "2zR34KlahY"%string /\
  Binary64.compressMillisBase62 34902897112121408 = Some "2zR34Klah2"%string /\
  lexLe chars62 "2zR34KlahY" "2zR34Klah2" = false /\
  ~ (forall a b ta tb,
       0 <= a -> a <= b ->
       Binary64.compressMillisBase62 a = Some ta ->
       Binary64.compressMillisBase62 b = Some tb ->
       String.length ta = String.length tb ->
       lexLe chars62 ta tb = true).
Proof.
  repeat apply conj; try reflexivity.
  intros H.
  specialize (H 34902897112121404 34902897112121408
                "2zR34KlahY"%string "2zR34Klah2"%string
                ltac:(lia) ltac:(lia) eq_refl eq_refl eq_refl).
  discriminate H.
Qed.

(** C6, as the code has it: for every timestamp and reference epoch (default
    1577836800000, that is 2020-01-01T00:00:00Z) whose difference is a safe
    integer, the reference-relative encoding is one sign character ('+' when
    [ts - referenceEpoch >= 0], '-' otherwise) followed by the Base62
    encoding of [|ts - referenceEpoch|], the text that reads back as that
    magnitude; the reference itself is encoded as "+0" and the millisecond
    before a safe reference as "-1". *)
Theorem variable_sign_and_magnitude (ts referenceEpoch : Z) :
  safeInteger (ts - referenceEpoch) ->
  Binary64.compressMillisVariable ts (Some referenceEpoch) =
    Some (String (if ts - referenceEpoch >=? 0 then "+"%char else "-"%char)
                 (specEncode chars62 (Z.abs (ts - referenceEpoch)))) /\
  decodeBase62 (specEncode chars62 (Z.abs (ts - referenceEpoch))) =
    Ok (Z.abs (ts - referenceEpoch)) /\
  (safeInteger (ts - 1577836800000) ->
   Binary64.compressMillisVariable ts None =
   Binary64.compressMillisVariable ts (Some 1577836800000)) /\
  Binary64.compressMillisVariable referenceEpoch (Some referenceEpoch) =
    Some "+0"%string /\
  Binary64.compressMillisVariable 1577836800000 None = Some "+0"%string /\
  (safeInteger referenceEpoch ->
   Binary64.compressMillisVariable (referenceEpoch - 1) (Some referenceEpoch) =
   Some "-1"%string) /\
  Binary64.compressMillisVariable (1577836800000 - 1) None = Some "-1"%string.
Proof.
  intros Hsafe.
  assert (Hone : forall r, Binary64.compressMillisVariable (r - 1) (Some r)
                           = Some "-1"%string).
  { intros r. rewrite variable_safe
      by (unfold safeInteger, MAX_SAFE_INTEGER; lia).
    unfold compressMillisVariable.
    replace (r - 1 - r) with (-1) by lia. reflexivity. }
  assert (Hzero : forall r, Binary64.compressMillisVariable r (Some r)
                            = Some "+0"%string).
  { intros r. rewrite variable_safe
      by (unfold safeInteger, MAX_SAFE_INTEGER; lia).
    unfold compressMillisVariable. now rewrite Z.sub_diag. }
  repeat apply conj.
  - rewrite (variable_safe ts (Some referenceEpoch) Hsafe).
    unfold compressMillisVariable.
    fold (compressMillisBase62 (Z.abs (ts - referenceEpoch))).
    now rewrite base62_spec by lia.
  - rewrite <- base62_spec by lia. apply base62_decode_encode. lia.
  - reflexivity.
  - apply Hzero.
  - reflexivity.
  - intros _. apply Hone.
  - reflexivity.
Qed.

Lemma variable_sign_and_magnitude_witness :
  Binary64.compressMillisVariable 1700000000000 (Some 1577836800000) =
  Some (String "+" (specEncode chars62 (Z.abs (1700000000000 - 1577836800000)))).
Proof.
  apply (variable_sign_and_magnitude 1700000000000 1577836800000);
    unfold safeInteger, MAX_SAFE_INTEGER; lia.
Defined.

(** C6 as stated fails where the difference is not a safe integer: for the
    timestamp 8639999999999999 and the reference -8640000000000000, both
    valid dates, [millis - referenceDate] is rounded to 17280000000000000 and
    the code writes "+1h8Q5B9FwQ", while the Base62 encoding of the
    difference 17279999999999999 is "1h8Q5B9FwP". *)
Lemma variable_rounds_large_difference :
  Binary64.compressMillisVariable 8639999999999999 (Some (-8640000000000000)) =
    Some "+1h8Q5B9FwQ"%string /\
  specEncode chars62 (Z.abs (8639999999999999 - -8640000000000000)) =
    "1h8Q5B9FwP"%string /\
  ~ (forall ts referenceEpoch,
       Binary64.compressMillisVariable ts (Some referenceEpoch) =
       Some (String (if ts - referenceEpoch >=? 0 then "+"%char else "-"%char)
                    (specEncode chars62 (Z.abs (ts - referenceEpoch))))).
Proof.
  repeat apply conj; try reflexivity.
  intros H. specialize (H 8639999999999999 (-8640000000000000)).
  vm_compute in H. discriminate H.
Qed.

(** C3, as the code has it: for every series that starts with a non-negative
    safe integer and whose consecutive differences are safe integers,
    [compressTimestampSeries] returns the Base62 encoding of [series[0]]
    followed, for each [i >= 1], by the sign of [series[i] - series[i-1]]
    ('+' when it is at least 0, '-' otherwise) and the Base62 encoding of its
    magnitude, with no separator; for
    [1700000000000, 1700000005000, 1700000012000] that is
    encode62(1700000000000) + "+" + encode62(5000) + "+" + encode62(7000),
    the text "tVCOKGI+1iE+1OU". *)
Theorem series_is_first_then_signed_deltas (first : Z) (rest : list Z) :
  0 <= first <= MAX_SAFE_INTEGER ->
  safeSteps first rest ->
  Binary64.compressTimestampSeries (first :: rest) =
    Some (specSeries (first :: rest)) /\
  Binary64.compressTimestampSeries
    [1700000000000; 1700000005000; 1700000012000] =
    Some (specEncode chars62 1700000000000 ++ "+" ++
          specEncode chars62 5000 ++ "+" ++ specEncode chars62 7000)%string /\
  (specEncode chars62 1700000000000 ++ "+" ++
   specEncode chars62 5000 ++ "+" ++ specEncode chars62 7000)%string =
  "tVCOKGI+1iE+1OU"%string.
Proof.
  intros Hfirst Hsteps. repeat apply conj; try reflexivity.
  rewrite (series_safe first rest Hfirst Hsteps).
  now rewrite series_spec by lia.
Qed.

Lemma series_is_first_then_signed_deltas_witness :
  Binary64.compressTimestampSeries [1700000000000; 1699999999000] =
  Some (specSeries [1700000000000; 1699999999000]).
Proof.
  apply (series_is_first_then_signed_deltas 1700000000000 [1699999999000]).
  - unfold MAX_SAFE_INTEGER. lia.
  - simpl. unfold safeInteger, MAX_SAFE_INTEGER. lia.
Defined.

(** C3 as stated fails where a difference is not a safe integer: for the
    series [8640000000000000, -8639999999999999] of valid dates the delta is
    rounded to -17280000000000000 and the code writes
    "Dzq2NzPLq-1h8Q5B9FwQ", while the format of the claim ends in the Base62
    encoding of 17279999999999999, "1h8Q5B9FwP".  And for a series that
    starts before the epoch the first text is no encoding of the first
    element: for [-1] it is "undefined", which reads as another number. *)
Lemma series_rounds_large_delta :
  Binary64.compressTimestampSeries [8640000000000000; -8639999999999999] =
    Some "Dzq2NzPLq-1h8Q5B9FwQ"%string /\
  specSeries [8640000000000000; -8639999999999999] =
    "Dzq2NzPLq-1h8Q5B9FwP"%string /\
  Binary64.compressTimestampSeries [-1] = Some "undefined"%string /\
  decodeBase62 "undefined" <> Ok (-1) /\
  ~ (forall series, series <> [] ->
       Binary64.compressTimestampSeries series = Some (specSeries series)).
Proof.
  repeat apply conj; try reflexivity; try discriminate.
  intros H.
  specialize (H [8640000000000000; -8639999999999999] ltac:(discriminate)).
  vm_compute in H. discriminate H.
Qed.

(* ================================================================== *)
(** * The day/time split on real dates *)
(* ================================================================== *)

Lemma validTimeValue_true millis :
  -8640000000000000 <= millis <= 8640000000000000 ->
  validTimeValue millis = true.
Proof.
  intros H. unfold validTimeValue. apply andb_true_iff.
  split; apply Z.leb_le; lia.
Qed.

Lemma split_fields localMidnight millis :
  -8640000000000000 <= millis <= 8640000000000000 ->
  millisecondsToDaysAndTime localMidnight millis =
  mkDaysAndTime (Some (millis / MS_PER_DAY))
                (Some (millis - localMidnight millis)).
Proof.
  intros H. unfold millisecondsToDaysAndTime.
  now rewrite (validTimeValue_true millis H), Z.sub_0_r.
Qed.

Lemma fixedOffset_millis offset ts :
  ts - fixedOffsetMidnight offset ts = (ts + offset) mod MS_PER_DAY.
Proof.
  unfold fixedOffsetMidnight. rewrite Z.mod_eq by (unfold MS_PER_DAY; lia).
  lia.
Qed.

(** C9, as the code has it: on a host at a fixed offset from UTC, for every
    valid timestamp from the local year 100 on, before the epoch as well as
    after it, the split returns [daysSinceEpoch = floor(ts / 86400000)],
    which is non-negative exactly when [ts >= 0] (it is negative for every
    pre-epoch timestamp), and a [millisSinceMidnight] in [0, 86400000), the
    milliseconds of the local day. *)
Theorem split_ranges (offset ts : Z) :
  -86400000 < offset < 86400000 ->
  -59011459200000 <= ts + offset ->
  ts <= 8640000000000000 ->
  exists days ms,
    millisecondsToDaysAndTime (fixedOffsetMidnight offset) ts =
      mkDaysAndTime (Some days) (Some ms) /\
    days = ts / 86400000 /\
    (0 <= days <-> 0 <= ts) /\
    (ts < 0 -> days < 0) /\
    ms = (ts + offset) mod 86400000 /\
    0 <= ms < 86400000.
Proof.
  intros Hoff Hlow Hup.
  exists (ts / 86400000), ((ts + offset) mod 86400000).
  change 86400000 with MS_PER_DAY.
  assert (HM : 0 < MS_PER_DAY) by (unfold MS_PER_DAY; lia).
  split; [|split; [|split; [|split; [|split]]]].
  - rewrite split_fields by (unfold MS_PER_DAY in *; lia).
    now rewrite fixedOffset_millis.
  - reflexivity.
  - split; intros H.
    + destruct (Z_lt_le_dec ts 0) as [Hneg|]; [|assumption].
      assert (ts / MS_PER_DAY < 0); [|lia].
      apply Z.div_lt_upper_bound; lia.
    + apply Z.div_pos; lia.
  - intros Hneg. apply Z.div_lt_upper_bound; lia.
  - reflexivity.
  - now apply Z.mod_pos_bound.
Qed.

Lemma split_ranges_witness :
  exists days ms,
    millisecondsToDaysAndTime (fixedOffsetMidnight 3600000) (-1) =
      mkDaysAndTime (Some days) (Some ms) /\
    days = -1 / 86400000 /\
    (0 <= days <-> 0 <= -1) /\
    (-1 < 0 -> days < 0) /\
    ms = (-1 + 3600000) mod 86400000 /\
    0 <= ms < 86400000.
Proof.
  apply (split_ranges 3600000 (-1)); lia.
Defined.

(** C9 as stated fails: one millisecond before the epoch the split returns
    day -1 (with 86399999 milliseconds, on a UTC host); and on the 25-hour
    local day of an autumn clock change the milliseconds since the local
    midnight pass 86400000: here they are 89999999, one millisecond before
    the next local midnight. *)
Lemma split_negative_days :
  millisecondsToDaysAndTime utcMidnight (-1) =
    mkDaysAndTime (Some (-1)) (Some 86399999) /\
  millisecondsToDaysAndTime autumnChangeMidnight 1698620399999 =
    mkDaysAndTime (Some 19659) (Some 89999999) /\
  ~ (forall (localMidnight : Z -> Z) (ts : Z),
       exists days ms,
         millisecondsToDaysAndTime localMidnight ts =
           mkDaysAndTime (Some days) (Some ms) /\
         0 <= days /\ 0 <= ms < 86400000).
Proof.
  repeat apply conj; try reflexivity.
  intros H. destruct (H utcMidnight (-1)) as (days & ms & Heq & Hdays & _).
  vm_compute in Heq. injection Heq as <- _. lia.
Qed.

(** Across a spring clock change two instants of one UTC day, 23 hours
    apart, get the same split, hence the same text: day 19813 and 5400000
    milliseconds after the local midnight. *)
Lemma split_collision_across_clock_change :
  millisecondsToDaysAndTime springChangeMidnight 1711845000000 =
    mkDaysAndTime (Some 19813) (Some 5400000) /\
  millisecondsToDaysAndTime springChangeMidnight 1711927800000 =
    mkDaysAndTime (Some 19813) (Some 5400000) /\
  compressSplitDaysTime springChangeMidnight 1711845000000 =
  compressSplitDaysTime springChangeMidnight 1711927800000.
Proof. repeat split; reflexivity. Qed.

Lemma split_text localMidnight millis :
  -8640000000000000 <= millis <= 8640000000000000 ->
  compressSplitDaysTime localMidnight millis =
  (compressMillisBase62 (millis / MS_PER_DAY) ++
   String ":" (compressMillisBase62 (millis - localMidnight millis)))%string.
Proof.
  intros H. unfold compressSplitDaysTime.
  now rewrite (split_fields localMidnight millis H).
Qed.

Lemma split_parts d m :
  0 <= d ->
  splitFirst ":" (compressMillisBase62 d ++
                  String ":" (compressMillisBase62 m)) =
  Some (compressMillisBase62 d, compressMillisBase62 m).
Proof.
  intros Hd. apply splitFirst_app.
  apply (contains_false_outside chars62); [|reflexivity].
  now apply base62_allIn.
Qed.

(** On a host at a fixed offset the decoder of section 4.4, with its
    adjustment for the local day, inverts the split encoder. *)
Lemma split_roundtrip offset ts :
  0 <= ts <= 8640000000000000 ->
  decodeSplitDaysTime (fixedOffsetMidnight offset)
    (compressSplitDaysTime (fixedOffsetMidnight offset) ts) = Ok ts.
Proof.
  intros Hts. rewrite split_text by lia. rewrite fixedOffset_millis.
  assert (HM : 0 < MS_PER_DAY) by (unfold MS_PER_DAY; lia).
  assert (Hd : 0 <= ts / MS_PER_DAY) by (apply Z.div_pos; lia).
  pose proof (Z.mod_pos_bound (ts + offset) MS_PER_DAY HM) as Hm.
  unfold decodeSplitDaysTime. rewrite split_parts by assumption.
  rewrite !base62_decode_encode by lia.
  unfold fixedOffsetMidnight. cbv zeta.
  set (d := ts / MS_PER_DAY) in *. set (m := (ts + offset) mod MS_PER_DAY) in *.
  assert (Hts' : MS_PER_DAY * d <= ts < MS_PER_DAY * d + MS_PER_DAY).
  { unfold d. pose proof (Z.div_mod ts MS_PER_DAY ltac:(lia)).
    pose proof (Z.mod_pos_bound ts MS_PER_DAY HM). lia. }
  assert (Hm' : ts + offset =
                MS_PER_DAY * ((ts + offset) / MS_PER_DAY) + m)
    by (unfold m; apply Z.div_mod; lia).
  set (qt := (ts + offset) / MS_PER_DAY) in *.
  set (c1 := MS_PER_DAY * ((0 + d * MS_PER_DAY + offset) / MS_PER_DAY)
             - offset + m).
  set (c2 := MS_PER_DAY *
             ((0 + d * MS_PER_DAY + MS_PER_DAY - 1 + offset) / MS_PER_DAY)
             - offset + m).
  assert (Hcases : c1 = ts \/ (c1 = ts - MS_PER_DAY /\ c2 = ts)).
  { unfold c1, c2. unfold MS_PER_DAY in *. clearbody d m qt.
    Z.div_mod_to_equations. lia. }
  destruct (c1 / MS_PER_DAY =? d) eqn:E.
  - apply Z.eqb_eq in E. f_equal.
    destruct Hcases as [H1 | [H1 H2]]; [assumption|exfalso].
    rewrite H1 in E. unfold MS_PER_DAY in *. clearbody d.
    revert E. Z.div_mod_to_equations. lia.
  - apply Z.eqb_neq in E. f_equal.
    destruct Hcases as [H1 | [H1 H2]]; [exfalso|assumption].
    apply E. rewrite H1. reflexivity.
Qed.

(* ================================================================== *)
(** * Round trips of the codecs *)
(* ================================================================== *)

Lemma direct_roundtrip codec t :
  0 <= t <= MAX_SAFE_INTEGER ->
  exists text,
    Binary64.directText codec t = Some text /\
    decodeDigits (directChars codec) text = Ok t.
Proof.
  intros Ht. exists (encodeDigits (directChars codec) t). split.
  - destruct codec;
      [apply (encodeDigits_safe chars36 chars36_base)
      |apply (encodeDigits_safe chars62 chars62_base)
      |apply (encodeDigits_safe chars94 chars94_base)]; assumption.
  - apply decode_encode;
      [apply directChars_base | apply directChars_distinct | lia].
Qed.

(** C1, as the code has it: for every timestamp [t] from the epoch to the
    last valid date each codec is inverted exactly by its documented decoder:
    Base36, Base62 and the alphabet of [compressMillisBase94] directly; the
    reference-relative codec for every timestamp, of either sign, whose
    difference to the reference is a safe integer; the split day/time codec
    on a host at a fixed offset from UTC; the fixed-width codec on its packed
    and on its fallback path; and the sequence codec on every series that
    starts with [t] and whose consecutive differences are safe integers,
    whatever its length and the signs of its deltas. *)
Theorem roundtrip_non_negative
  (offset t : Z) (referenceDate : option Z) (rest : list Z) :
  0 <= t <= 8640000000000000 ->
  -86400000 < offset < 86400000 ->
  (exists text, Binary64.compressMillisCustom t = Some text /\
                decodeBase36 text = Ok t) /\
  (exists text, Binary64.compressMillisBase62 t = Some text /\
                decodeBase62 text = Ok t) /\
  (exists text, Binary64.compressMillisBase94 t = Some text /\
                decodeBase94 text = Ok t) /\
  (forall ts,
     safeInteger
       (ts - match referenceDate with
             | Some r => r
             | None => 1577836800000
             end) ->
     exists text,
       Binary64.compressMillisVariable ts referenceDate = Some text /\
       decodeVariable text referenceDate = Ok ts) /\
  decodeSplitDaysTime (fixedOffsetMidnight offset)
    (compressSplitDaysTime (fixedOffsetMidnight offset) t) = Ok t /\
  (exists text,
     compressMillisBitPacked t = Js.Return text /\
     decodeBitPacked text = Ok t) /\
  (safeSteps t rest ->
   exists text,
     Binary64.compressTimestampSeries (t :: rest) = Some text /\
     decodeTimestampSeries text = Ok (t :: rest)).
Proof.
  intros Ht Hoff.
  assert (Hsafe : 0 <= t <= MAX_SAFE_INTEGER) by (unfold MAX_SAFE_INTEGER; lia).
  repeat apply conj.
  - apply (direct_roundtrip Base36 t Hsafe).
  - apply (direct_roundtrip Base62 t Hsafe).
  - apply (direct_roundtrip Base94 t Hsafe).
  - intros ts Hts. exists (compressMillisVariable ts referenceDate). split.
    + now apply variable_safe.
    + apply variable_roundtrip.
  - apply split_roundtrip. lia.
  - apply bitPacked_roundtrip. lia.
  - intros Hsteps. exists (compressTimestampSeries (t :: rest)). split.
    + now apply series_safe.
    + apply series_roundtrip. lia.
Qed.

Lemma roundtrip_non_negative_witness :
  exists text,
    Binary64.compressTimestampSeries
      [1700000000000; 1700000005000; 1699999999000] = Some text /\
    decodeTimestampSeries text =
    Ok [1700000000000; 1700000005000; 1699999999000].
Proof.
  apply (roundtrip_non_negative 3600000 1700000000000 None
           [1700000005000; 1699999999000]).
  - lia.
  - lia.
  - simpl. unfold safeInteger, MAX_SAFE_INTEGER. lia.
Defined.

(** C1 as stated fails on valid timestamps.  Before the epoch
    [compressMillisBase62] writes -62 exactly as it writes 0, so no decoder
    returns both.  Where a difference is not a safe integer it is rounded:
    the reference-relative codec writes 8639999999999999 and
    8640000000000000 alike against the reference -8640000000000000, and the
    sequence codec writes the series [8640000000000000, -8639999999999999]
    as the series [8640000000000000, -8640000000000000].  Across a clock
    change the split codec writes two instants of one UTC day alike. *)
Lemma roundtrip_fails :
  Binary64.compressMillisBase62 (-62) = Some "0"%string /\
  Binary64.compressMillisBase62 0 = Some "0"%string /\
  ~ (exists decode : string -> Decoded Z,
       forall t text,
         Binary64.compressMillisBase62 t = Some text -> decode text = Ok t) /\
  Binary64.compressMillisVariable 8639999999999999 (Some (-8640000000000000)) =
  Binary64.compressMillisVariable 8640000000000000 (Some (-8640000000000000)) /\
  Binary64.compressTimestampSeries [8640000000000000; -8639999999999999] =
  Binary64.compressTimestampSeries [8640000000000000; -8640000000000000] /\
  compressSplitDaysTime springChangeMidnight 1711845000000 =
  compressSplitDaysTime springChangeMidnight 1711927800000.
Proof.
  repeat apply conj; try reflexivity.
  intros [decode H].
  pose proof (H 0 "0"%string eq_refl) as H0.
  pose proof (H (-62) "0"%string eq_refl) as H62.
  rewrite H0 in H62. discriminate H62.
Qed.

(* ================================================================== *)
(** * More on the split codec *)
(* ================================================================== *)

(** X14: on a host at a fixed offset from UTC (no clock change),
    [compressSplitDaysTime] is injective on the valid timestamps from the
    epoch on: the UTC day number and the milliseconds since the local
    midnight determine the instant. *)
Theorem split_injective_fixed_offset (offset a b : Z) :
  -86400000 < offset < 86400000 ->
  0 <= a <= 8640000000000000 -> 0 <= b <= 8640000000000000 -> a <> b ->
  compressSplitDaysTime (fixedOffsetMidnight offset) a <>
  compressSplitDaysTime (fixedOffsetMidnight offset) b.
Proof.
  intros Hoff Ha Hb Hneq Heq. apply Hneq.
  pose proof (split_roundtrip offset a Ha) as Da.
  pose proof (split_roundtrip offset b Hb) as Db.
  rewrite Heq in Da. rewrite Da in Db. now injection Db.
Qed.

Lemma split_injective_fixed_offset_witness :
  compressSplitDaysTime (fixedOffsetMidnight 3600000) 1711845000000 <>
  compressSplitDaysTime (fixedOffsetMidnight 3600000) 1711927800000.
Proof.
  apply (split_injective_fixed_offset 3600000 1711845000000 1711927800000);
    lia.
Defined.

(** X19: beyond the last valid date, in either direction, the date is
    invalid, both fields of the split are [NaN] and [compressSplitDaysTime]
    returns "undefined:undefined" for every such number, whatever the host
    calendar. *)
Theorem split_invalid_date (localMidnight : Z -> Z) (millis : Z) :
  8640000000000000 < Z.abs millis ->
  millisecondsToDaysAndTime localMidnight millis = mkDaysAndTime None None /\
  compressSplitDaysTime localMidnight millis = "undefined:undefined"%string.
Proof.
  intros Hout.
  assert (E : validTimeValue millis = false).
  { unfold validTimeValue. apply andb_false_iff.
    destruct (Z_lt_le_dec millis 0) as [Hneg | Hpos].
    - left. apply Z.leb_gt. lia.
    - right. apply Z.leb_gt. lia. }
  unfold compressSplitDaysTime, millisecondsToDaysAndTime. rewrite E.
  split; reflexivity.
Qed.

Lemma split_invalid_date_witness :
  compressSplitDaysTime utcMidnight 8640000000000001 =
  "undefined:undefined"%string.
Proof.
  apply (split_invalid_date utcMidnight 8640000000000001). lia.
Defined.

(* ================================================================== *)
(** * More on the encoders, on safe integers *)
(* ================================================================== *)

Lemma directText_safe codec v :
  0 <= v <= MAX_SAFE_INTEGER ->
  Binary64.directText codec v = Some (directText codec v).
Proof.
  intros Hv. destruct codec;
    [apply (encodeDigits_safe chars36 chars36_base)
    |apply (encodeDigits_safe chars62 chars62_base)
    |apply (encodeDigits_safe chars94 chars94_base)]; assumption.
Qed.

(** X1: on a positive safe integer the output of a direct encoder has
    exactly as many characters as the value has digits in the encoder's
    base (36, 62, and 90 for the Base94 encoder): [v] is written with [k]
    characters exactly when [base^(k-1) <= v < base^k]. *)
Theorem direct_length_is_digit_count (codec : DirectCodec) (v : Z) (k : nat) :
  0 < v -> v <= MAX_SAFE_INTEGER -> (1 <= k)%nat ->
  exists text,
    Binary64.directText codec v = Some text /\
    (String.length text = k <->
     directBase codec ^ (Z.of_nat k - 1) <= v < directBase codec ^ Z.of_nat k).
Proof.
  intros Hv Hmax Hk. exists (directText codec v).
  split; [apply directText_safe; lia|].
  rewrite directText_loop. unfold directBase.
  pose proof (directChars_base codec) as Hb.
  split.
  - intros <-. now apply encode_digit_count.
  - intros [Hlow Hup].
    pose proof (encode_length_below _ Hb v k ltac:(lia) Hk Hup) as H1.
    pose proof (encode_length_above _ Hb v (k - 1)) as H2.
    replace (Z.of_nat (k - 1)) with (Z.of_nat k - 1) in H2 by lia.
    specialize (H2 Hlow). lia.
Qed.

Lemma direct_length_is_digit_count_witness :
  exists text,
    Binary64.directText Base62 1700000000000 = Some text /\
    (String.length text = 7%nat <->
     directBase Base62 ^ (Z.of_nat 7 - 1) <= 1700000000000
     < directBase Base62 ^ Z.of_nat 7).
Proof.
  apply (direct_length_is_digit_count Base62 1700000000000 7).
  - lia.
  - unfold MAX_SAFE_INTEGER. lia.
  - lia.
Defined.

(** X3: on safe integers numeric order is shortlex order: for non-negative
    safe [a] and [b], [a <= b] exactly when the text of [a] is shorter than
    the text of [b], or as long and not after it in the order of the digit
    indices. *)
Theorem direct_order_is_shortlex (codec : DirectCodec) (a b : Z) :
  0 <= a <= MAX_SAFE_INTEGER -> 0 <= b <= MAX_SAFE_INTEGER ->
  exists ta tb,
    Binary64.directText codec a = Some ta /\
    Binary64.directText codec b = Some tb /\
    (a <= b <->
     (String.length ta < String.length tb)%nat \/
     (String.length ta = String.length tb /\
      lexLe (directChars codec) ta tb = true)).
Proof.
  intros Ha Hb. exists (directText codec a), (directText codec b).
  split; [now apply directText_safe|].
  split; [now apply directText_safe|].
  rewrite !directText_loop.
  apply encode_shortlex; try lia.
  - apply directChars_base.
  - apply directChars_distinct.
Qed.

Lemma direct_order_is_shortlex_witness :
  exists ta tb,
    Binary64.directText Base62 5 = Some ta /\
    Binary64.directText Base62 500000 = Some tb /\
    (5 <= 500000 <->
     (String.length ta < String.length tb)%nat \/
     (String.length ta = String.length tb /\
      lexLe (directChars Base62) ta tb = true)).
Proof.
  apply (direct_order_is_shortlex Base62 5 500000);
    unfold MAX_SAFE_INTEGER; lia.
Defined.

(** X8: for a fixed reference date [compressMillisVariable] is injective on
    the timestamps, before the reference and before the epoch included,
    whose difference to the reference is a safe integer. *)
Theorem variable_injective (ts1 ts2 : Z) (referenceDate : option Z) :
  safeInteger
    (ts1 - match referenceDate with Some r => r | None => 1577836800000 end) ->
  safeInteger
    (ts2 - match referenceDate with Some r => r | None => 1577836800000 end) ->
  ts1 <> ts2 ->
  Binary64.compressMillisVariable ts1 referenceDate <>
  Binary64.compressMillisVariable ts2 referenceDate.
Proof.
  intros H1 H2 Hneq Heq. apply Hneq.
  rewrite (variable_safe ts1 referenceDate H1) in Heq.
  rewrite (variable_safe ts2 referenceDate H2) in Heq.
  assert (Htext : compressMillisVariable ts1 referenceDate =
                  compressMillisVariable ts2 referenceDate) by congruence.
  pose proof (variable_roundtrip ts1 referenceDate) as D1.
  pose proof (variable_roundtrip ts2 referenceDate) as D2.
  rewrite Htext in D1. rewrite D1 in D2. now injection D2.
Qed.

Lemma variable_injective_witness :
  Binary64.compressMillisVariable (-1) None <>
  Binary64.compressMillisVariable 1 None.
Proof.
  apply (variable_injective (-1) 1 None);
    unfold safeInteger, MAX_SAFE_INTEGER; lia.
Defined.

(** X9: a timestamp whose difference to the reference date is a safe
    integer of magnitude below [62^k] is written with at most [k + 1]
    characters: one sign and at most [k] digits. *)
Theorem variable_short_near_reference (ts reference : Z) (k : nat) :
  (1 <= k)%nat ->
  safeInteger (ts - reference) ->
  Z.abs (ts - reference) < 62 ^ Z.of_nat k ->
  exists text,
    Binary64.compressMillisVariable ts (Some reference) = Some text /\
    (String.length text <= k + 1)%nat.
Proof.
  intros Hk Hsafe Hnear.
  exists (compressMillisVariable ts (Some reference)).
  split; [now apply variable_safe|].
  unfold compressMillisVariable. cbn [String.length].
  pose proof (encode_length_below chars62 chars62_base
                (Z.abs (ts - reference)) k ltac:(lia) Hk Hnear).
  lia.
Qed.

Lemma variable_short_near_reference_witness :
  exists text,
    Binary64.compressMillisVariable 1577836800000 (Some 1577923200000)
    = Some text /\
    (String.length text <= 5 + 1)%nat.
Proof.
  apply (variable_short_near_reference 1577836800000 1577923200000 5).
  - lia.
  - unfold safeInteger, MAX_SAFE_INTEGER. lia.
  - vm_compute. reflexivity.
Defined.

Lemma series_append_exact first rest t :
  compressTimestampSeries (first :: rest ++ [t]) =
  (compressTimestampSeries (first :: rest) ++
   deltaEntry (t - last (first :: rest) 0))%string.
Proof.
  unfold compressTimestampSeries.
  rewrite fold_left_app, !seriesStep_state. cbn [fst deltaEntries].
  now rewrite last_cons, string_app_nil_r.
Qed.

Lemma safeSteps_app rest :
  forall prev t,
    safeSteps prev (rest ++ [t]) ->
    safeSteps prev rest /\ safeInteger (t - last rest prev).
Proof.
  induction rest as [|x rest IH]; intros prev t H.
  - simpl in *. tauto.
  - destruct H as [Hx Hrest]. destruct (IH x t Hrest) as [H1 H2].
    split; [split; assumption|].
    now rewrite last_cons.
Qed.

(** X11: encoding is incremental: when a series that starts with a
    non-negative safe integer and steps by safe integers is extended by one
    timestamp, a safe integer away from its last element, the text of the
    longer series is the text of the series followed by one entry, the sign
    and the Base62 encoding of the magnitude of the difference to the last
    element. *)
Theorem series_append (first : Z) (rest : list Z) (t : Z) :
  0 <= first <= MAX_SAFE_INTEGER ->
  safeSteps first (rest ++ [t]) ->
  exists text,
    Binary64.compressTimestampSeries (first :: rest) = Some text /\
    Binary64.compressTimestampSeries (first :: rest ++ [t]) =
    Some (text ++ specEntry (t - last (first :: rest) 0))%string.
Proof.
  intros Hfirst Hsteps.
  destruct (safeSteps_app rest first t Hsteps) as [Hrest _].
  exists (compressTimestampSeries (first :: rest)). split.
  - now apply series_safe.
  - rewrite (series_safe first (rest ++ [t]) Hfirst Hsteps).
    now rewrite series_append_exact, deltaEntry_spec.
Qed.

Lemma series_append_witness :
  exists text,
    Binary64.compressTimestampSeries [1700000000000; 1700000005000]
    = Some text /\
    Binary64.compressTimestampSeries
      (1700000000000 :: [1700000005000] ++ [1700000012000]) =
    Some (text ++
          specEntry (1700000012000 - last [1700000000000; 1700000005000] 0))%string.
Proof.
  apply (series_append 1700000000000 [1700000005000] 1700000012000).
  - unfold MAX_SAFE_INTEGER. lia.
  - simpl. unfold safeInteger, MAX_SAFE_INTEGER. lia.
Defined.

Lemma series_safe_text series :
  safeSeries series ->
  Binary64.compressTimestampSeries series =
  Some (compressTimestampSeries series).
Proof.
  destruct series as [|first rest]; [reflexivity|].
  intros [Hfirst Hsteps]. now apply series_safe.
Qed.

(** X12: two different series that are empty or start with a non-negative
    safe integer, and step by safe integers, never share a text, whatever
    the signs of their deltas. *)
Theorem series_injective (s1 s2 : list Z) :
  safeSeries s1 -> safeSeries s2 -> s1 <> s2 ->
  Binary64.compressTimestampSeries s1 <> Binary64.compressTimestampSeries s2.
Proof.
  intros H1 H2 Hneq Heq. apply Hneq.
  rewrite (series_safe_text s1 H1), (series_safe_text s2 H2) in Heq.
  assert (Htext : compressTimestampSeries s1 = compressTimestampSeries s2)
    by congruence.
  destruct s1 as [|a ra], s2 as [|b rb].
  - reflexivity.
  - exfalso. symmetry in Htext. now apply series_text_nonempty in Htext.
  - exfalso. now apply series_text_nonempty in Htext.
  - destruct H1 as [Ha _], H2 as [Hb _].
    pose proof (series_roundtrip a ra ltac:(lia)) as D1.
    pose proof (series_roundtrip b rb ltac:(lia)) as D2.
    rewrite Htext in D1. rewrite D1 in D2. now injection D2 as -> ->.
Qed.

Lemma series_injective_witness :
  Binary64.compressTimestampSeries [1700000000000; 1700000005000] <>
  Binary64.compressTimestampSeries [1700000000000; 1699999995000].
Proof.
  apply (series_injective [1700000000000; 1700000005000]
                          [1700000000000; 1699999995000]).
  - simpl. unfold safeInteger, MAX_SAFE_INTEGER. lia.
  - simpl. unfold safeInteger, MAX_SAFE_INTEGER. lia.
  - discriminate.
Defined.

(** X13: for the series that [processTimestampEnhanced] builds from its
    timestamp ([millis], [millis + 5000], [millis + 12000]), with [millis]
    non-negative (the function has thrown before for a negative one) and
    [millis + 12000] still a safe integer, the delta encoding is the Base62
    encoding of [millis] followed by the eight characters "+1iE+1OU". *)
Theorem demo_series_text (millis : Z) :
  0 <= millis -> millis + 12000 <= MAX_SAFE_INTEGER ->
  Binary64.compressTimestampSeries (Binary64.demoSeries millis) =
  Some (specEncode chars62 millis ++ "+1iE+1OU")%string.
Proof.
  intros Hpos Hmax. unfold Binary64.demoSeries.
  rewrite !add_safe by (unfold safeInteger, MAX_SAFE_INTEGER in *; lia).
  rewrite series_safe.
  - rewrite compressTimestampSeries_entries, base62_spec by assumption.
    cbn [deltaEntries].
    replace (millis + 5000 - millis) with 5000 by lia.
    replace (millis + 12000 - (millis + 5000)) with 7000 by lia.
    reflexivity.
  - unfold MAX_SAFE_INTEGER in *. lia.
  - simpl. unfold safeInteger, MAX_SAFE_INTEGER in *. lia.
Qed.

Lemma demo_series_text_witness :
  Binary64.compressTimestampSeries (Binary64.demoSeries 1700000000000) =
  Some (specEncode chars62 1700000000000 ++ "+1iE+1OU")%string.
Proof.
  apply (demo_series_text 1700000000000); unfold MAX_SAFE_INTEGER; lia.
Defined.

(** X18: when a series starts with a non-negative safe integer and every
    further timestamp is a safe integer of magnitude below [62^k] away from
    the one before it, each timestamp after the first costs at most [k + 1]
    characters: the text is at most the Base62 encoding of the first
    timestamp plus [k + 1] characters per further element. *)
Theorem series_length_bound (first : Z) (rest : list Z) (k : nat) :
  (1 <= k)%nat ->
  0 <= first <= MAX_SAFE_INTEGER ->
  safeSteps first rest ->
  stepsBelow (62 ^ Z.of_nat k) first rest ->
  exists text,
    Binary64.compressTimestampSeries (first :: rest) = Some text /\
    (String.length text <=
     String.length (specEncode chars62 first) + (k + 1) * List.length rest)%nat.
Proof.
  intros Hk Hfirst Hsafe Hsteps.
  exists (compressTimestampSeries (first :: rest)).
  split; [now apply series_safe|].
  rewrite compressTimestampSeries_entries, string_length_app.
  rewrite <- base62_spec by lia.
  pose proof (deltaEntries_length k rest Hk first Hsteps). lia.
Qed.

Lemma series_length_bound_witness :
  exists text,
    Binary64.compressTimestampSeries [1700000000000; 1700000005000; 1700000012000]
    = Some text /\
    le (String.length text)
       (String.length (specEncode chars62 1700000000000) +
        (3 + 1) * List.length [1700000005000%Z; 1700000012000%Z])%nat.
Proof.
  apply (series_length_bound 1700000000000 [1700000005000; 1700000012000] 3).
  - lia.
  - unfold MAX_SAFE_INTEGER. lia.
  - simpl. unfold safeInteger, MAX_SAFE_INTEGER. lia.
  - simpl. lia.
Defined.

(* ================================================================== *)
(** * The shape of the 64-bit base64 text *)
(* ================================================================== *)

Lemma toBase64_pair a b :
  0 <= a < 256 -> 0 <= b < 256 ->
  exists c0 c1 c2,
    toBase64 [a; b] = String c0 (String c1 (String c2 "=")) /\
    allIn base64Chars (String c0 (String c1 (String c2 EmptyString))) = true.
Proof.
  intros Ha Hb. cbn [toBase64].
  set (n := a * 65536 + b * 256).
  assert (Hn : 0 <= n < 16777216) by (unfold n; lia).
  assert (R0 : 0 <= n / 262144 < 64)
    by (split; [apply Z.div_pos | apply Z.div_lt_upper_bound]; lia).
  assert (R1 : 0 <= n / 4096 mod 64 < 64) by (apply Z.mod_pos_bound; lia).
  assert (R2 : 0 <= n / 64 mod 64 < 64) by (apply Z.mod_pos_bound; lia).
  destruct (base64Digit_index _ R0) as [I0 _].
  destruct (base64Digit_index _ R1) as [I1 _].
  destruct (base64Digit_index _ R2) as [I2 _].
  do 3 eexists. split; [reflexivity|].
  cbn [allIn]. now rewrite I0, I1, I2.
Qed.

(** X15: on every signed 64-bit integer [compressMillisBase64] returns
    twelve characters: eleven characters of the base64 alphabet, none of
    them the padding, followed by one padding '='; on an integer outside
    that range it throws a [RangeError]. *)
Theorem base64_is_twelve_characters (ts : Z) :
  (-9223372036854775808 <= ts <= 9223372036854775807 ->
   exists body,
     compressMillisBase64 ts = Js.Return (body ++ "=")%string /\
     String.length body = 11%nat /\
     allIn base64Chars body = true /\
     contains "=" body = false) /\
  (~ (-9223372036854775808 <= ts <= 9223372036854775807) ->
   compressMillisBase64 ts = Js.Throw Js.RangeError).
Proof.
  split.
  - intros Hts. unfold compressMillisBase64.
    rewrite (writeBigInt64BE_alloc ts Hts). cbn [Js.bind].
    unfold bigEndian64, bigEndian32. cbn [app].
    set (hi := ts / 4294967296 mod 4294967296).
    set (lo := ts mod 4294967296).
    destruct (toBase64_triple
                (hi / 16777216 mod 256) (hi / 65536 mod 256)
                (hi / 256 mod 256)
                [hi mod 256; lo / 16777216 mod 256; lo / 65536 mod 256;
                 lo / 256 mod 256; lo mod 256]
                (byte_range _) (byte_range _) (byte_range _))
      as (c0 & c1 & c2 & c3 & E1 & A1).
    destruct (toBase64_triple
                (hi mod 256) (lo / 16777216 mod 256) (lo / 65536 mod 256)
                [lo / 256 mod 256; lo mod 256]
                (byte_range _) (byte_range _) (byte_range _))
      as (c4 & c5 & c6 & c7 & E2 & A2).
    destruct (toBase64_pair (lo / 256 mod 256) (lo mod 256)
                (byte_range _) (byte_range _))
      as (c8 & c9 & c10 & E3 & A3).
    rewrite E1, E2, E3.
    set (body := String c0 (String c1 (String c2 (String c3 (String c4
                 (String c5 (String c6 (String c7 (String c8 (String c9
                 (String c10 EmptyString))))))))))).
    assert (Hall : allIn base64Chars body = true).
    { unfold body. cbn [allIn] in *.
      destruct (indexOf base64Chars c0); [|discriminate].
      destruct (indexOf base64Chars c1); [|discriminate].
      destruct (indexOf base64Chars c2); [|discriminate].
      destruct (indexOf base64Chars c3); [|discriminate].
      destruct (indexOf base64Chars c4); [|discriminate].
      destruct (indexOf base64Chars c5); [|discriminate].
      destruct (indexOf base64Chars c6); [|discriminate].
      destruct (indexOf base64Chars c7); [|discriminate].
      exact A3. }
    exists body. repeat split; try reflexivity; try assumption.
    now apply (contains_false_outside base64Chars).
  - intros Hts. unfold compressMillisBase64.
    now rewrite (writeBigInt64BE_range ts Hts).
Qed.
